(** * raytracer-ts: collision, shading and the recursive radiance estimator

    The program computes on JavaScript numbers.  Its functions are embedded
    once, over an interface [Arith] of the arithmetic they use, and the
    interface is instantiated twice:

    - [Rarith div0], exact real arithmetic (Stdlib's [R]), in which the
      analytic properties (bounds, signs, unit length) are proved.  A
      quotient by zero has no value there: [div0 x] stands for whatever
      [x / 0] is taken to be, and every property is proved for all [div0];
    - [Farith], IEEE 754 binary64 (Rocq's primitive floats), which is the
      arithmetic of a JavaScript number and on which the program is run on
      concrete inputs, divisions by zero, infinities and NaN included.

    Properties that only depend on the control flow are proved for every
    instance of the interface.

    Not modelled: the rounding of exact arithmetic to binary64 (the
    analytic properties are about the formulas), and the rounding of the
    components that gl-matrix stores in its default [Float32Array]; the
    concrete runs only meet stored values that are exact in both formats
    (0, small integers, NaN) or signs and bounds that this rounding does
    not change. *)

From Stdlib Require Import Uint63 PrimFloat.
From Stdlib Require Import ZArith List Bool Reals Lra Lia Psatz.
From Stdlib Require Import Sorted Permutation.
From stdpp Require Import gmap strings pretty.

Set Implicit Arguments.

(** ** Numbers *)

(** The operations of a JavaScript number that the program uses.  Literals
    are integers or quotients of integers ([0.9] is [9/10], [0.001] is
    [1/1000]; a correctly rounded quotient of two small integers is the
    nearest binary64 to the decimal literal). *)
Class Arith (num : Type) := {
  ofZ : Z -> num;
  nadd : num -> num -> num;
  nsub : num -> num -> num;
  nmul : num -> num -> num;
  ndiv : num -> num -> num;
  nneg : num -> num;
  nltb : num -> num -> bool;
  Math_sqrt : num -> num;
  Math_abs : num -> num;
  Math_max : num -> num -> num;
  Math_PI : num
}.

Declare Scope js_scope.
Delimit Scope js_scope with js.
Infix "+" := nadd : js_scope.
Infix "-" := nsub : js_scope.
Infix "*" := nmul : js_scope.
Infix "/" := ndiv : js_scope.
Notation "- x" := (nneg x) : js_scope.
Infix "<?" := nltb : js_scope.
Notation "x >? y" := (nltb y x) (only parsing) : js_scope.
Notation "# z" := (ofZ z%Z) (at level 1, format "# z") : js_scope.

(** [Math.cos], [Math.sin], [Math.tan] and [Math.random] are the parts of
    [Math] that ECMAScript leaves to the implementation; they are gathered
    in an environment.  [draws i] is the value of the [i]-th call of
    [Math.random] of a run. *)
Record MathEnv (num : Type) := {
  Math_cos : num -> num;
  Math_sin : num -> num;
  Math_tan : num -> num;
  draws : nat -> num
}.

(** Code that calls [Math.random] threads the number of draws made so far. *)
Definition Rand (A : Type) : Type := nat -> A * nat.

Definition ret {A} (a : A) : Rand A := fun i => (a, i).

Definition bind {A B} (c : Rand A) (k : A -> Rand B) : Rand B :=
  fun i => let (a, j) := c i in k a j.

Notation "'let*' x ':=' c 'in' k" := (bind c (fun x => k))
  (at level 10, x name, c at level 100, k at level 200).

Definition Math_random {num} (M : MathEnv num) : Rand num :=
  fun i => (draws M i, S i).

(** *** Exact real arithmetic *)

Definition Rltb (x y : R) : bool := if Rlt_dec x y then true else false.

(** The quotient, with [div0 x] in the place of [x / 0]. *)
Definition Rdiv0 (div0 : R -> R) (x y : R) : R :=
  if Req_dec_T y 0 then div0 x else (x / y)%R.

Definition Rarith (div0 : R -> R) : Arith R := {|
  ofZ := IZR;
  nadd := Rplus;
  nsub := Rminus;
  nmul := Rmult;
  ndiv := Rdiv0 div0;
  nneg := Ropp;
  nltb := Rltb;
  Math_sqrt := sqrt;
  Math_abs := Rabs;
  Math_max := Rmax;
  Math_PI := PI
|}.

Definition RMath (u : nat -> R) : MathEnv R := {|
  Math_cos := cos;
  Math_sin := sin;
  Math_tan := tan;
  draws := u
|}.

(** *** binary64 *)

(** Integer literals and counts; exact below [2^53], far above every
    literal of the program and every sample count that can be run. *)
Definition float_ofZ (z : Z) : float :=
  match z with
  | Z0 => PrimFloat.zero
  | Zpos _ => PrimFloat.of_uint63 (Uint63.of_Z z)
  | Zneg p => PrimFloat.opp (PrimFloat.of_uint63 (Uint63.of_Z (Zpos p)))
  end.

(** [Math.max] of two arguments: NaN if either is NaN, and [+0] is larger
    than [-0]. *)
Definition float_max (a b : float) : float :=
  if PrimFloat.is_nan a || PrimFloat.is_nan b then PrimFloat.nan
  else if PrimFloat.ltb a b then b
  else if PrimFloat.ltb b a then a
  else if PrimFloat.get_sign a then b else a.

#[export] Instance Farith : Arith float := {|
  ofZ := float_ofZ;
  nadd := PrimFloat.add;
  nsub := PrimFloat.sub;
  nmul := PrimFloat.mul;
  ndiv := PrimFloat.div;
  nneg := PrimFloat.opp;
  nltb := PrimFloat.ltb;
  Math_sqrt := PrimFloat.sqrt;
  Math_abs := PrimFloat.abs;
  Math_max := float_max;
  Math_PI := 0x1.921fb54442d18p+1%float
|}.

(** ** gl-matrix: [vec3] and [mat3]

    The operations the program calls, as gl-matrix defines them.  An [out]
    parameter is the returned value; every call site of the program passes
    a fresh or a dead array there. *)

Module mat3.
Section ops.
Context {num : Type} {arith : Arith num}.
Local Open Scope js_scope.

(** Nine entries in column-major order. *)
Record t := fromValues {
  m00 : num; m01 : num; m02 : num;
  m10 : num; m11 : num; m12 : num;
  m20 : num; m21 : num; m22 : num
}.
End ops.
Arguments t num : clear implicits.
End mat3.

Module vec3.
Section ops.
Context {num : Type} {arith : Arith num}.
Local Open Scope js_scope.

Record t := fromValues { x : num; y : num; z : num }.

Definition create : t := fromValues #0 #0 #0.

Definition add (a b : t) : t :=
  fromValues (x a + x b) (y a + y b) (z a + z b).

Definition subtract (a b : t) : t :=
  fromValues (x a - x b) (y a - y b) (z a - z b).

Definition multiply (a b : t) : t :=
  fromValues (x a * x b) (y a * y b) (z a * z b).

Definition scale (a : t) (b : num) : t :=
  fromValues (x a * b) (y a * b) (z a * b).

Definition scaleAndAdd (a b : t) (s : num) : t :=
  fromValues (x a + x b * s) (y a + y b * s) (z a + z b * s).

Definition dot (a b : t) : num :=
  x a * x b + y a * y b + z a * z b.

Definition sqrLen (a : t) : num :=
  x a * x a + y a * y a + z a * z a.

Definition cross (a b : t) : t :=
  fromValues (y a * z b - z a * y b)
             (z a * x b - x a * z b)
             (x a * y b - y a * x b).

(** [normalize] leaves the zero vector as it is. *)
Definition normalize (a : t) : t :=
  let len := sqrLen a in
  let len := if len >? #0 then #1 / Math_sqrt len else len in
  fromValues (x a * len) (y a * len) (z a * len).

Definition transformMat3 (a : t) (m : mat3.t num) : t :=
  fromValues
    (x a * mat3.m00 m + y a * mat3.m10 m + z a * mat3.m20 m)
    (x a * mat3.m01 m + y a * mat3.m11 m + z a * mat3.m21 m)
    (x a * mat3.m02 m + y a * mat3.m12 m + z a * mat3.m22 m).
End ops.
Arguments t num : clear implicits.
End vec3.

(** ** scene.ts *)

(** A reference to an object of the heap: JavaScript compares objects by
    address ([===], [!==]), not by content. *)
Record ref (A : Type) := mkRef { addr : nat; target : A }.

Section scene.
Context {num : Type}.

Record Camera := { fovY : num }.

Record Material := { albedo : vec3.t num }.

Record Light := { radiantPower : num; light_position : vec3.t num }.

Record Sphere := {
  radius : num;
  sphere_position : vec3.t num;
  material : string
}.

(** [Object3D = Geometry | Light], told apart by the [type] field. *)
Inductive Object3D :=
| sphere (s : Sphere)
| light (l : Light).

Record Scene := {
  camera : Camera;
  materials : gmap string Material;
  objects : list Object3D
}.

(** The elements of [scene.objects], each with its address: the object
    at index [i] of the array is the heap object [i]. *)
Fixpoint refsFrom (i : nat) (l : list Object3D) : list (ref Object3D) :=
  match l with
  | [] => []
  | o :: l' => mkRef i o :: refsFrom (S i) l'
  end.

(** [scene.objects.filter((o) => o.type === "sphere")] *)
Definition filterSpheres (l : list (ref Object3D)) : list (ref Sphere) :=
  flat_map (fun o => match target o with
                     | sphere s => [mkRef (addr o) s]
                     | light _ => []
                     end) l.

(** [scene.objects.filter((o) => o.type === "light")] *)
Definition filterLights (l : list (ref Object3D)) : list (ref Light) :=
  flat_map (fun o => match target o with
                     | sphere _ => []
                     | light l => [mkRef (addr o) l]
                     end) l.
End scene.
Arguments Camera num : clear implicits.
Arguments Material num : clear implicits.
Arguments Light num : clear implicits.
Arguments Sphere num : clear implicits.
Arguments Object3D num : clear implicits.
Arguments Scene num : clear implicits.

(** ** collision.ts *)

Section collision.
Context {num : Type} {arith : Arith num}.
Local Open Scope js_scope.

Definition X : vec3.t num := vec3.fromValues #1 #0 #0.
Definition Y : vec3.t num := vec3.fromValues #0 #1 #0.

Record Contact := {
  position : vec3.t num;
  normal : vec3.t num;
  geometry : ref (Sphere num)
}.

Record Ray := { origin : vec3.t num; direction : vec3.t num }.

Record Seg := { start : vec3.t num; end_ : vec3.t num }.

Definition raySphereT (ray : Ray) (s : Sphere num) : option num :=
  let oc := vec3.subtract (origin ray) (sphere_position s) in
  let a := vec3.sqrLen (direction ray) in
  let b := #2 * vec3.dot oc (direction ray) in
  let c := vec3.sqrLen oc - radius s * radius s in
  let discriminant := b * b - #4 * a * c in
  if discriminant <? #0 then None
  else Some ((- b - Math_sqrt discriminant) / (#2 * a)).

Definition intersectRaySphere (ray : Ray) (s : ref (Sphere num))
  : option Contact :=
  match raySphereT ray (target s) with
  | None => None
  | Some t =>
      if t <? #0 then None
      else
        let position :=
          vec3.scaleAndAdd (origin ray) (direction ray) t in
        let normal := vec3.subtract position (sphere_position (target s)) in
        let normal := vec3.normalize normal in
        Some {| position := position; normal := normal; geometry := s |}
  end.

Definition intersectSegSphere (seg : Seg) (s : ref (Sphere num))
  : option Contact :=
  let ray := {| origin := start seg;
                direction := vec3.subtract (end_ seg) (start seg) |} in
  match raySphereT ray (target s) with
  | None => None
  | Some t =>
      if (t <? #0) || (t >? #1) then None
      else
        let position :=
          vec3.scaleAndAdd (start seg)
            (vec3.subtract (end_ seg) (start seg)) t in
        let normal := vec3.subtract position (sphere_position (target s)) in
        let normal := vec3.normalize normal in
        Some {| position := position; normal := normal; geometry := s |}
  end.

(** The comparator handed to [sort]: negative when [a] is nearer to
    [point] than [b]. *)
Definition closestTo (point : vec3.t num) (a b : Contact) : num :=
  let distA := vec3.sqrLen (vec3.subtract (position a) point) in
  let distB := vec3.sqrLen (vec3.subtract (position b) point) in
  distA - distB.

Definition cosineWeightedHemisphereSampleZ (M : MathEnv num)
  : Rand (vec3.t num) :=
  let* u1 := Math_random M in
  let r := Math_sqrt u1 in
  let* u2 := Math_random M in
  let theta := u2 * #2 * Math_PI in
  let x := r * Math_cos M theta in
  let y := r * Math_sin M theta in
  let z := Math_sqrt (Math_max #0 (#1 - x * x - y * y)) in
  ret (vec3.fromValues x y z).

Definition arbitraryBasis (z : vec3.t num) : mat3.t num :=
  let ref := if Math_abs (vec3.y z) <? #9 / #10 then Y else X in
  let x := vec3.normalize (vec3.cross z ref) in
  let y := vec3.cross z x in
  mat3.fromValues (vec3.x x) (vec3.y x) (vec3.z x)
                  (vec3.x y) (vec3.y y) (vec3.z y)
                  (vec3.x z) (vec3.y z) (vec3.z z).

Definition cosineWeightedHemisphereSample (M : MathEnv num)
  (normal : vec3.t num) : Rand (vec3.t num) :=
  let* sampleDir := cosineWeightedHemisphereSampleZ M in
  let basis := arbitraryBasis normal in
  ret (vec3.transformMat3 sampleDir basis).
End collision.
Arguments Contact num : clear implicits.
Arguments Ray num : clear implicits.
Arguments Seg num : clear implicits.

(** ** shading.ts *)

Section shading.
Context {num : Type} {arith : Arith num}.
Local Open Scope js_scope.

Record Dimensions := { width : num; height : num }.

Record Viewport := {
  imagePlaneWidth : num;
  imagePlaneHeight : num;
  dims : Dimensions
}.

(** The constructor of the class [Viewport]. *)
Definition Viewport_new (M : MathEnv num) (dims : Dimensions)
  (camera : Camera num) : Viewport :=
  let aspectRatio := width dims / height dims in
  let imagePlaneHeight := #2 * Math_tan M (fovY camera / #2) in
  let imagePlaneWidth := imagePlaneHeight * aspectRatio in
  {| imagePlaneWidth := imagePlaneWidth;
     imagePlaneHeight := imagePlaneHeight;
     dims := dims |}.

Definition rayForPixel (this : Viewport) (x y : num) : Ray num :=
  let pixelScreenX := (#2 * x + #1) / width (dims this) - #1 in
  let pixelScreenY := #1 - (#2 * y + #1) / height (dims this) in
  let pixelWorldX := pixelScreenX * (imagePlaneWidth this / #2) in
  let pixelWorldY := pixelScreenY * (imagePlaneHeight this / #2) in
  {| origin := vec3.create;
     direction := vec3.fromValues pixelWorldX pixelWorldY (- #1) |}.

Definition lambertTerm (toLight normal : vec3.t num) (material : Material num)
  : vec3.t num :=
  vec3.scale
    (vec3.scale (albedo material) (#1 / Math_PI))
    (Math_max (vec3.dot toLight normal) #0).

Definition evaluatePointLight (light : Light num) (contact : Contact num)
  (material : Material num) : vec3.t num :=
  let toLight := vec3.subtract (light_position light) (position contact) in
  let falloff := #1 / vec3.sqrLen toLight in
  let lightIntensity := radiantPower light / (#4 * Math_PI) in
  let irradiance := lightIntensity * falloff in
  let brdfCosine :=
    lambertTerm (vec3.normalize toLight) (normal contact) material in
  vec3.scale brdfCosine irradiance.

Definition tonemapReinhard (color : vec3.t num) : vec3.t num :=
  vec3.fromValues
    (vec3.x color / (#1 + vec3.x color))
    (vec3.y color / (#1 + vec3.y color))
    (vec3.z color / (#1 + vec3.z color)).
End shading.
Arguments Dimensions num : clear implicits.
Arguments Viewport num : clear implicits.

(** ** trace.ts *)

Section trace.
Context {num : Type} {arith : Arith num}.
Local Open Scope js_scope.

(** [Array.prototype.sort] with a comparator.  The sort is stable, and
    [b] goes before [a] only when [cmp a b > 0]; for a comparator that
    orders its inputs consistently this fixes the result, computed here
    by insertion. *)
Fixpoint sort_insert {A} (cmp : A -> A -> num) (a : A) (l : list A) : list A :=
  match l with
  | [] => [a]
  | b :: l' => if cmp a b >? #0 then b :: sort_insert cmp a l' else a :: l
  end.

Definition Array_sort {A} (cmp : A -> A -> num) (l : list A) : list A :=
  fold_right (sort_insert cmp) [] l.

(** A [for] loop that runs [n] times on an accumulator. *)
Fixpoint forLoop {S} (n : nat) (body : S -> Rand S) (acc : S) : Rand S :=
  match n with
  | O => ret acc
  | Datatypes.S n' => let* acc' := body acc in forLoop n' body acc'
  end.

(** [const rayHits]: the contacts of the ray with the spheres of the
    scene, nearest to the ray origin first. *)
Definition rayHits (ray : Ray num) (scene : Scene num) : list (Contact num) :=
  Array_sort (closestTo (origin ray))
    (flat_map (fun s => match intersectRaySphere ray s with
                        | Some contact => [contact]
                        | None => []
                        end)
       (filterSpheres (refsFrom 0 (objects scene)))).

(** [const occluded], for one light. *)
Definition occluded (scene : Scene num) (hit : Contact num)
  (l : ref (Light num)) : bool :=
  let shadowSeg := {| start := position hit;
                      end_ := light_position (target l) |} in
  existsb (fun s => match intersectSegSphere shadowSeg s with
                    | Some _ => true
                    | None => false
                    end)
    (filter (fun o => negb (addr o =? addr (geometry hit))%nat)
       (filterSpheres (refsFrom 0 (objects scene)))).

(** [const directLight] *)
Definition directLight (scene : Scene num) (hit : Contact num)
  (material : Material num) : vec3.t num :=
  fold_left vec3.add
    (map (fun l => if occluded scene hit l then vec3.create
                   else evaluatePointLight (target l) hit material)
       (filterLights (refsFrom 0 (objects scene))))
    vec3.create.

(** [radianceForRay] by recursion on the remaining depth, a natural
    number. *)
Fixpoint radianceAtDepth (M : MathEnv num) (scene : Scene num)
  (indirectSamples : Z) (depth : nat) (ray : Ray num)
  : Rand (option (vec3.t num)) :=
  match depth with
  | O => ret None
  | S depth' =>
      match rayHits ray scene with
      | [] => ret None
      | hit :: _ =>
          match materials scene !! material (target (geometry hit)) with
          | None => ret None
          | Some material =>
              let directLight := directLight scene hit material in
              let* indirectLight :=
                forLoop (Z.to_nat indirectSamples)
                  (fun indirectLight =>
                     let* indirectDir :=
                       cosineWeightedHemisphereSample M (normal hit) in
                     let indirectOrigin :=
                       vec3.scaleAndAdd (position hit) (normal hit)
                         (#1 / #1000) in
                     let indirectRay :=
                       {| origin := indirectOrigin;
                          direction := indirectDir |} in
                     let* incomingRadiance :=
                       radianceAtDepth M scene indirectSamples depth'
                         indirectRay in
                     match incomingRadiance with
                     | Some incoming =>
                         let contribution :=
                           vec3.multiply (albedo material) incoming in
                         ret (vec3.add indirectLight contribution)
                     | None => ret indirectLight
                     end)
                  vec3.create in
              let indirectLight :=
                vec3.scale indirectLight (#1 / ofZ indirectSamples) in
              ret (Some (vec3.add directLight indirectLight))
          end
      end
  end.

(** [depth] and [indirectSamples] are integers; [depth <= 0] is the base
    case, and a positive depth recurses on [depth - 1]. *)
Definition radianceForRay (M : MathEnv num) (ray : Ray num)
  (scene : Scene num) (depth indirectSamples : Z)
  : Rand (option (vec3.t num)) :=
  radianceAtDepth M scene indirectSamples (Z.to_nat depth) ray.
End trace.


(** ** main.ts *)

(** What a [Buffer] (a [Uint8Array]) stores when a number is assigned to
    one of its elements: the number truncated to an integer, modulo 256,
    and 0 for NaN and the infinities. *)
Class Uint8 (num : Type) := toUint8 : num -> Z.



(** In binary64: the mantissa, an integer of 53 bits, shifted by the
    exponent. *)
Definition float_truncate (f : float) : Z :=
  if PrimFloat.is_nan f || PrimFloat.is_infinity f then 0%Z
  else
    let (m, e) := PrimFloat.frshiftexp (PrimFloat.abs f) in
    let mantissa := Uint63.to_Z (PrimFloat.normfr_mantissa m) in
    let exponent := (Uint63.to_Z e - 2101 - 53)%Z in
    let magnitude :=
      if (0 <=? exponent)%Z then (mantissa * 2 ^ exponent)%Z
      else (mantissa / 2 ^ (- exponent))%Z in
    if PrimFloat.get_sign f then (- magnitude)%Z else magnitude.

#[export] Instance Fuint8 : Uint8 float :=
  fun f => (float_truncate f mod 256)%Z.

(** [buffer[i] = byte]; an index outside the buffer stores nothing. *)
Definition Buffer_set (data : list Z) (i : Z) (byte : Z) : list Z :=
  if (i <? 0)%Z then data else <[Z.to_nat i := byte]> data.

(** The image: [png.width], [png.height] and the bytes of [png.data], four
    for every pixel, row after row. *)
Record PNG := { png_width : Z; png_height : Z; png_data : list Z }.

Section main.
Context {num : Type} {arith : Arith num} {uint8 : Uint8 num}.
Local Open Scope js_scope.

(** [for (let i = 0; i < n; i++)], for a body that reads [i]: [n] rounds
    from [i] on. *)
Fixpoint forRange {S} (n : nat) (i : nat) (body : nat -> S -> Rand S)
  (acc : S) : Rand S :=
  match n with
  | O => ret acc
  | Datatypes.S n' =>
      let* acc' := body i acc in forRange n' (Datatypes.S i) body acc'
  end.

(** The template literal [`color${i}`]. *)
Definition colorName (i : nat) : string := "color" +:+ pretty i.

(** The first loop of [randomScene], on [materials] and [objects]. *)
Definition randomSphere (M : MathEnv num) (i : nat)
  (st : gmap string (Material num) * list (Object3D num))
  : Rand (gmap string (Material num) * list (Object3D num)) :=
  let* r := Math_random M in
  let* g := Math_random M in
  let* b := Math_random M in
  let materials :=
    <[ colorName i := {| albedo := vec3.fromValues r g b |} ]> (fst st) in
  let* px := Math_random M in
  let* py := Math_random M in
  let* pz := Math_random M in
  let* rad := Math_random M in
  ret (materials,
       snd st ++
       [sphere {| radius := rad * #1 + #1 / #2;
                  sphere_position :=
                    vec3.fromValues (px * #10 - #5) (py * #10 - #5)
                      (pz * (- #10) - #5);
                  material := colorName i |}]).

(** The second loop of [randomScene]. *)
Definition randomLight (M : MathEnv num) (i : nat)
  (objects : list (Object3D num)) : Rand (list (Object3D num)) :=
  let* power := Math_random M in
  let* px := Math_random M in
  let* py := Math_random M in
  let* pz := Math_random M in
  ret (objects ++
       [light {| radiantPower := power * #1000 + #500;
                 light_position :=
                   vec3.fromValues (px * #10 - #5) (py * #10 - #5)
                     (pz * (- #10) - #5) |}]).

Definition randomScene (M : MathEnv num) : Rand (Scene num) :=
  let* st := forRange 10 0 (randomSphere M) (∅, []) in
  let* objects := forRange 3 0 (randomLight M) (snd st) in
  ret {| camera := {| fovY := #10472 / #10000 |};
         materials := fst st;
         objects := objects |}.

(** [const idx]: where the four bytes of the pixel [(x, y)] start. *)
Definition pixelIndex (width x y : Z) : Z := ((y * width + x) * 4)%Z.

(** [const color]: the tone-mapped radiance of the ray of a pixel, black
    when there is none. *)
Definition pixelColor (M : MathEnv num) (viewport : Viewport num)
  (scene : Scene num) (depth samples : Z) (x y : Z) : Rand (vec3.t num) :=
  let ray := rayForPixel viewport (ofZ x) (ofZ y) in
  let* radiance := radianceForRay M ray scene depth samples in
  ret (match radiance with
       | Some radiance => tonemapReinhard radiance
       | None => vec3.create
       end).

(** The four assignments to [png.data]. *)
Definition writePixel (data : list Z) (idx : Z) (color : vec3.t num)
  : list Z :=
  let data := Buffer_set data (idx + 0) (toUint8 (vec3.x color * #255)) in
  let data := Buffer_set data (idx + 1) (toUint8 (vec3.y color * #255)) in
  let data := Buffer_set data (idx + 2) (toUint8 (vec3.z color * #255)) in
  Buffer_set data (idx + 3) 255.

(** [renderRow(y)]: the loop over the pixels of a row. *)
Definition renderRow (M : MathEnv num) (viewport : Viewport num)
  (scene : Scene num) (depth samples : Z) (y : Z) (png : PNG) : Rand PNG :=
  forRange (Z.to_nat (png_width png)) 0
    (fun x png =>
       let* color :=
         pixelColor M viewport scene depth samples (Z.of_nat x) y in
       let idx := pixelIndex (png_width png) (Z.of_nat x) y in
       ret {| png_width := png_width png;
              png_height := png_height png;
              png_data := writePixel (png_data png) idx color |})
    png.

(** The rendering of the image: the viewport of the image and of the
    camera of the scene, and the rows, one awaited after the other. *)
Definition render (M : MathEnv num) (scene : Scene num) (depth samples : Z)
  (png : PNG) : Rand PNG :=
  let viewport :=
    Viewport_new M {| width := ofZ (png_width png);
                      height := ofZ (png_height png) |} (camera scene) in
  forRange (Z.to_nat (png_height png)) 0
    (fun y png => renderRow M viewport scene depth samples (Z.of_nat y) png)
    png.
End main.

(** The parts of [randomScene] and of the image that the properties
    name. *)
Section main_terms.
Context {num : Type} {arith : Arith num} {uint8 : Uint8 num}.
Local Open Scope js_scope.

(** What a round of the loops of [randomScene] makes of the draws from
    [i] on: the material, a position, the sphere of round [k], a light. *)
Definition drawnMaterial (M : MathEnv num) (i : nat) : Material num :=
  {| albedo :=
       vec3.fromValues (draws M i) (draws M (1 + i)) (draws M (2 + i)) |}.

Definition drawnPosition (M : MathEnv num) (i : nat) : vec3.t num :=
  vec3.fromValues (draws M i * #10 - #5) (draws M (1 + i) * #10 - #5)
    (draws M (2 + i) * (- #10) - #5).

Definition drawnSphere (M : MathEnv num) (k i : nat) : Sphere num :=
  {| radius := draws M (6 + i) * #1 + #1 / #2;
     sphere_position := drawnPosition M (3 + i);
     material := colorName k |}.

Definition drawnLight (M : MathEnv num) (i : nat) : Light num :=
  {| radiantPower := draws M i * #1000 + #500;
     light_position := drawnPosition M (1 + i) |}.

(** The four bytes that [renderRow] stores for a colour, and the four
    elements of [png.data] of the pixel [(x, y)]. *)
Definition pixelBytes (color : vec3.t num) : list Z :=
  [toUint8 (vec3.x color * #255); toUint8 (vec3.y color * #255);
   toUint8 (vec3.z color * #255); 255%Z].

Definition pixelAt (png : PNG) (x y : Z) : list (option Z) :=
  map (fun c =>
         png_data png
         !! (Z.to_nat (pixelIndex (png_width png) x y) + c)%nat)
      [0; 1; 2; 3]%nat.

(** The viewport that the rendering uses. *)
Definition imageViewport (M : MathEnv num) (scene : Scene num) (png : PNG)
  : Viewport num :=
  Viewport_new M {| width := ofZ (png_width png);
                    height := ofZ (png_height png) |} (camera scene).
End main_terms.

(** ** The quantities the specification names *)

Section spec_terms.
Context {num : Type} {arith : Arith num}.
Local Open Scope js_scope.

(** [b² − 4·a·cc] with [a = d·d], [b = 2(oc·d)], [cc = oc·oc − r²] and
    [oc = origin − center]. *)
Definition spec_discriminant (ray : Ray num) (s : Sphere num) : num :=
  let oc := vec3.subtract (origin ray) (sphere_position s) in
  let a := vec3.dot (direction ray) (direction ray) in
  let b := #2 * vec3.dot oc (direction ray) in
  let cc := vec3.dot oc oc - radius s * radius s in
  b * b - #4 * a * cc.

(** The near root [(−b − √discriminant)/(2a)]. *)
Definition spec_nearRoot (ray : Ray num) (s : Sphere num) : num :=
  let oc := vec3.subtract (origin ray) (sphere_position s) in
  let a := vec3.dot (direction ray) (direction ray) in
  let b := #2 * vec3.dot oc (direction ray) in
  (- b - Math_sqrt (spec_discriminant ray s)) / (#2 * a).

(** The contact at parameter [t] of the line [o + t·d] with the sphere [s]:
    [position = o + t·d], [normal = normalize(position − s.position)],
    [geometry = s]. *)
Definition contactAt (o d : vec3.t num) (t : num) (s : ref (Sphere num))
  : Contact num :=
  let p := vec3.scaleAndAdd o d t in
  {| position := p;
     normal := vec3.normalize (vec3.subtract p (sphere_position (target s)));
     geometry := s |}.

(** The ray of a segment: from [seg.start] along [seg.end − seg.start]. *)
Definition segRay (seg : Seg num) : Ray num :=
  {| origin := start seg;
     direction := vec3.subtract (end_ seg) (start seg) |}.

(** The spheres of a scene, as [radianceForRay] enumerates them. *)
Definition sceneSpheres (scene : Scene num) : list (ref (Sphere num)) :=
  filterSpheres (refsFrom 0 (objects scene)).

(** The lights of a scene. *)
Definition sceneLights (scene : Scene num) : list (ref (Light num)) :=
  filterLights (refsFrom 0 (objects scene)).

(** The hit that [radianceForRay] shades: the first of the sorted contacts. *)
Definition nearestHit (ray : Ray num) (scene : Scene num)
  : option (Contact num) :=
  head (rayHits ray scene).
End spec_terms.

(** ** Concrete inputs, in binary64 *)

Module Example.
Local Open Scope float_scope.

Definition vec (a b c : float) : vec3.t float := vec3.fromValues a b c.

(** An environment in which [Math.random] always returns 0 (its range is
    [0, 1)).  The runs below then call [Math.cos] and [Math.sin] at 0 only,
    where ECMAScript fixes their values, 1 and 0; [Math.tan] is not
    called. *)
Definition Math0 : MathEnv float := {|
  Math_cos := fun _ => 1;
  Math_sin := fun _ => 0;
  Math_tan := fun _ => 0;
  draws := fun _ => 0
|}.

Definition redSphere : Sphere float :=
  {| radius := 1; sphere_position := vec 0 0 (-3); material := "red" |}.

(** One red sphere of radius 1 centred at (0,0,-3) and one light of
    radiant power 1000 at [lightAt]. *)
Definition scene (lightAt : vec3.t float) : Scene float := {|
  camera := {| fovY := 1 |};
  materials := <[ "red"%string := {| albedo := vec 1 0 0 |} ]> ∅;
  objects := [ sphere redSphere;
               light {| radiantPower := 1000; light_position := lightAt |} ]
|}.

(** The ray from the origin straight down the view axis. *)
Definition ray : Ray float :=
  {| origin := vec 0 0 0; direction := vec 0 0 (-1) |}.

(** Where that ray meets the sphere. *)
Definition hit : Contact float :=
  {| position := vec 0 0 (-2);
     normal := vec 0 0 1;
     geometry := mkRef 0 redSphere |}.

(** A segment of length zero, and a sphere that is nowhere near it. *)
Definition point : Seg float :=
  {| start := vec 0 0 0; end_ := vec 0 0 0 |}.

End Example.

(** ** Exact arithmetic: the specification's formulas and sample inputs

    Written with the operations of [R] alone. *)

Module Exact.
Local Open Scope R_scope.

Definition vec (a b c : R) : vec3.t R := vec3.fromValues a b c.

(** A colour or radiance with no negative channel. *)
Definition nonneg (v : vec3.t R) : Prop :=
  0 <= vec3.x v /\ 0 <= vec3.y v /\ 0 <= vec3.z v.

(** Dot product, difference, squared length [|v|²], length [|v|], the unit
    vector [v/|v|] and the cross product. *)
Definition dot (a b : vec3.t R) : R :=
  vec3.x a * vec3.x b + vec3.y a * vec3.y b + vec3.z a * vec3.z b.

Definition minus (a b : vec3.t R) : vec3.t R :=
  vec (vec3.x a - vec3.x b) (vec3.y a - vec3.y b) (vec3.z a - vec3.z b).

Definition norm2 (v : vec3.t R) : R := dot v v.

Definition length (v : vec3.t R) : R := sqrt (norm2 v).

Definition unitVector (v : vec3.t R) : vec3.t R :=
  vec (vec3.x v / length v) (vec3.y v / length v) (vec3.z v / length v).

Definition cross (a b : vec3.t R) : vec3.t R :=
  vec (vec3.y a * vec3.z b - vec3.z a * vec3.y b)
      (vec3.z a * vec3.x b - vec3.x a * vec3.z b)
      (vec3.x a * vec3.y b - vec3.y a * vec3.x b).


(** The point-light formula of the specification, for one albedo channel:
    [(albedo/π) · max(dot(normalize(toLight), normal), 0)
     · (radiantPower/(4π)) · (1/|toLight|²)]. *)
Definition pointLightChannel (albedo : R) (light : Light R)
  (contact : Contact R) : R :=
  let toLight := minus (light_position light) (position contact) in
  (albedo / PI)
  * Rmax (dot (unitVector toLight) (normal contact)) 0
  * (radiantPower light / (4 * PI))
  * (1 / (length toLight)²).

(** Malley's method: the disk point [r = √U₁], [θ = 2πU₂], lifted by
    [z = √max(0, 1−x²−y²)]. *)
Definition malley (u1 u2 : R) : vec3.t R :=
  let r := sqrt u1 in
  let theta := 2 * PI * u2 in
  let x := r * cos theta in
  let y := r * sin theta in
  vec x y (sqrt (Rmax 0 (1 - x² - y²))).

(** The reference axis of the basis around [normal]: world Y when
    [|normal_y| < 0.9], world X otherwise. *)
Definition referenceAxis (normal : vec3.t R) : vec3.t R :=
  if Rlt_dec (Rabs (vec3.y normal)) (9 / 10) then vec 0 1 0 else vec 1 0 0.

(** The three columns of a matrix. *)
Definition column0 (m : mat3.t R) : vec3.t R :=
  vec (mat3.m00 m) (mat3.m01 m) (mat3.m02 m).
Definition column1 (m : mat3.t R) : vec3.t R :=
  vec (mat3.m10 m) (mat3.m11 m) (mat3.m12 m).
Definition column2 (m : mat3.t R) : vec3.t R :=
  vec (mat3.m20 m) (mat3.m21 m) (mat3.m22 m).

(** The image of [v] under the matrix with columns [a], [b], [c]. *)
Definition combination (a b c v : vec3.t R) : vec3.t R :=
  vec (vec3.x a * vec3.x v + vec3.x b * vec3.y v + vec3.x c * vec3.z v)
      (vec3.y a * vec3.x v + vec3.y b * vec3.y v + vec3.y c * vec3.z v)
      (vec3.z a * vec3.x v + vec3.z b * vec3.y v + vec3.z c * vec3.z v).

(** Three vectors of length 1 that are pairwise orthogonal. *)
Definition orthonormal (a b c : vec3.t R) : Prop :=
  norm2 a = 1 /\ norm2 b = 1 /\ norm2 c = 1 /\
  dot a b = 0 /\ dot a c = 0 /\ dot b c = 0.

(** The assumptions on a scene under which the radiance is not negative:
    albedos are not negative, lights have positive power, spheres have
    positive radius, and no light lies on the surface of a sphere. *)
Definition albedosNonneg (scene : Scene R) : Prop :=
  forall name m, materials scene !! name = Some m -> nonneg (albedo m).

Definition lightsPositive (scene : Scene R) : Prop :=
  forall l, In l (sceneLights scene) -> 0 < radiantPower (target l).

Definition radiiPositive (scene : Scene R) : Prop :=
  forall s, In s (sceneSpheres scene) -> 0 < radius (target s).

Definition lightsOffSurfaces (scene : Scene R) : Prop :=
  forall l s, In l (sceneLights scene) -> In s (sceneSpheres scene) ->
    norm2 (minus (light_position (target l)) (sphere_position (target s)))
    <> radius (target s) * radius (target s).

(** Every draw of [Math.random] lies in [0, 1). *)
Definition drawsInRange (u : nat -> R) : Prop := forall i, 0 <= u i < 1.

(** Sample inputs: a grey sphere in front of the camera, lit from the
    camera side. *)
Definition greySphere : Sphere R :=
  {| radius := 1; sphere_position := vec 0 0 (-3); material := "grey" |}.

Definition lamp : Light R :=
  {| radiantPower := 1000; light_position := vec 2 2 0 |}.

Definition scene : Scene R := {|
  camera := {| fovY := 1 |};
  materials := <[ "grey"%string := {| albedo := vec (1/2) (1/2) (1/2) |} ]> ∅;
  objects := [ sphere greySphere; light lamp ]
|}.

Definition ray : Ray R :=
  {| origin := vec 0 0 0; direction := vec 0 0 (-1) |}.

Definition hit : Contact R :=
  {| position := vec 0 0 (-2);
     normal := vec 0 0 1;
     geometry := mkRef 0 greySphere |}.

(** A value for the quotients by zero, where a closed term needs one. *)
Definition anyDiv0 : R -> R := fun _ => 0.
End Exact.

(** ** Named parts of [radianceForRay] *)

Section trace_parts.
Context {num : Type} {arith : Arith num}.
Local Open Scope js_scope.

(** [const indirectRay]: the ray that leaves a contact in direction
    [indirectDir], from an origin pushed 0.001 along the normal. *)
Definition indirectRay (hit : Contact num) (indirectDir : vec3.t num)
  : Ray num :=
  let indirectOrigin :=
    vec3.scaleAndAdd (position hit) (normal hit) (#1 / #1000) in
  {| origin := indirectOrigin; direction := indirectDir |}.

(** The contacts of the ray with the spheres of the scene, in the order of
    [scene.objects]: the array that [rayHits] sorts. *)
Definition sceneContacts (ray : Ray num) (scene : Scene num)
  : list (Contact num) :=
  flat_map (fun s => match intersectRaySphere ray s with
                     | Some contact => [contact]
                     | None => []
                     end)
    (sceneSpheres scene).

(** The shadow segment of [radianceForRay], from a contact to a light. *)
Definition shadowSeg (hit : Contact num) (l : Light num) : Seg num :=
  {| start := position hit; end_ := light_position l |}.

(** The most calls of [Math.random] that a call of [radianceForRay] with
    [n] samples per bounce can make at a depth: two per sample, and the
    recursive call of the sample. *)
Fixpoint maxDraws (n depth : nat) : nat :=
  match depth with
  | O => O
  | S depth' => n * (2 + maxDraws n depth')
  end.
End trace_parts.

(** ** Exact arithmetic: the ray and the sphere *)

Module Geometry.
Local Open Scope R_scope.

(** The point [o + t·d] of a ray. *)
Definition pointAt (ray : Ray R) (t : R) : vec3.t R :=
  Exact.vec (vec3.x (origin ray) + vec3.x (direction ray) * t)
            (vec3.y (origin ray) + vec3.y (direction ray) * t)
            (vec3.z (origin ray) + vec3.z (direction ray) * t).

(** The squared distance of a point from the centre of a sphere, and the
    points on its surface. *)
Definition dist2 (p : vec3.t R) (s : Sphere R) : R :=
  Exact.norm2 (Exact.minus p (sphere_position s)).

Definition onSphere (p : vec3.t R) (s : Sphere R) : Prop :=
  dist2 p s = radius s * radius s.

(** [(p − c)·d]: positive when the ray leaves the centre behind. *)
Definition away (ray : Ray R) (s : Sphere R) : R :=
  Exact.dot (Exact.minus (origin ray) (sphere_position s)) (direction ray).

(** The light [light] moved along the line from the contact through it,
    to [k] times its distance from the contact. *)
Definition moved (light : Light R) (contact : Contact R) (k : R) : Light R :=
  {| radiantPower := radiantPower light;
     light_position :=
       Exact.vec
         (vec3.x (position contact)
          + k * (vec3.x (light_position light) - vec3.x (position contact)))
         (vec3.y (position contact)
          + k * (vec3.y (light_position light) - vec3.y (position contact)))
         (vec3.z (position contact)
          + k * (vec3.z (light_position light) - vec3.z (position contact)))
  |}.

(** The squared distance of a contact from a point. *)
Definition distanceFrom (point : vec3.t R) (c : Contact R) : R :=
  Exact.norm2 (Exact.minus (position c) point).

(** Sample inputs: the unit sphere around (0,0,-3), as a heap object. *)
Definition ball : ref (Sphere R) := mkRef 0 Exact.greySphere.

(** The scene of [Exact.scene] without its light. *)
Definition darkScene : Scene R := {|
  camera := {| fovY := 1 |};
  materials :=
    <[ "grey"%string := {| albedo := Exact.vec (1/2) (1/2) (1/2) |} ]> ∅;
  objects := [ sphere Exact.greySphere ]
|}.

(** A segment from the camera to a point behind [ball]. *)
Definition throughBall : Seg R :=
  {| start := Exact.vec 0 0 0; end_ := Exact.vec 0 0 (-6) |}.

(** A ray that starts at the centre of [ball]. *)
Definition inner : Ray R :=
  {| origin := Exact.vec 0 0 (-3); direction := Exact.vec 0 0 (-1) |}.

(** A ray that starts at the camera and looks away from [ball]. *)
Definition backward : Ray R :=
  {| origin := Exact.vec 0 0 0; direction := Exact.vec 0 0 1 |}.
End Geometry.

(** ** Exact arithmetic: a sample viewport *)

Module Screen.
Local Open Scope R_scope.

(** An image of 4 by 2 pixels and a camera with a field of view of one
    radian. *)
Definition dims : Dimensions R := {| width := 4; height := 2 |}.

Definition camera : Camera R := {| fovY := 1 |}.

Definition Math : MathEnv R := RMath (fun _ => 0).
End Screen.

(** ** A sample image *)

Module Image.
(** A blank image of two pixels by one. *)
Definition blank : PNG :=
  {| png_width := 2; png_height := 1;
     png_data := [0; 0; 0; 0; 0; 0; 0; 0]%Z |}.
End Image.

(** * Properties *)

Unset Implicit Arguments.

(** ** Control flow of the intersection routines, for every arithmetic *)

Section collision_facts.
Context {num : Type} {arith : Arith num}.
Local Open Scope js_scope.

Lemma sqrLen_dot (v : vec3.t num) : vec3.sqrLen v = vec3.dot v v.
Proof. reflexivity. Qed.

Lemma raySphereT_eq (ray : Ray num) (s : Sphere num) :
  raySphereT ray s =
  if spec_discriminant ray s <? #0 then None else Some (spec_nearRoot ray s).
Proof. reflexivity. Qed.

Lemma intersectRaySphere_eq (ray : Ray num) (s : ref (Sphere num)) :
  intersectRaySphere ray s =
  match raySphereT ray (target s) with
  | None => None
  | Some t =>
      if t <? #0 then None
      else Some (contactAt (origin ray) (direction ray) t s)
  end.
Proof. reflexivity. Qed.

Lemma intersectSegSphere_eq (seg : Seg num) (s : ref (Sphere num)) :
  intersectSegSphere seg s =
  match raySphereT (segRay seg) (target s) with
  | None => None
  | Some t =>
      if (t <? #0) || (t >? #1) then None
      else Some (contactAt (start seg) (direction (segRay seg)) t s)
  end.
Proof. reflexivity. Qed.

Lemma intersectRaySphere_Some (ray : Ray num) (s : ref (Sphere num)) c :
  intersectRaySphere ray s = Some c <->
  exists t, raySphereT ray (target s) = Some t /\ (t <? #0) = false /\
            c = contactAt (origin ray) (direction ray) t s.
Proof.
  rewrite intersectRaySphere_eq.
  destruct (raySphereT ray (target s)) as [t|].
  - destruct (t <? #0) eqn:Ht; split.
    + discriminate.
    + intros (t' & Heq & Hneg & _). injection Heq as <-. congruence.
    + intros [= <-]. exists t. auto.
    + intros (t' & Heq & _ & ->). injection Heq as <-. reflexivity.
  - split; [discriminate | intros (t & Heq & _); discriminate].
Qed.

Lemma intersectSegSphere_Some (seg : Seg num) (s : ref (Sphere num)) c :
  intersectSegSphere seg s = Some c <->
  exists t, raySphereT (segRay seg) (target s) = Some t /\
            (t <? #0) = false /\ (t >? #1) = false /\
            c = contactAt (start seg) (direction (segRay seg)) t s.
Proof.
  rewrite intersectSegSphere_eq.
  destruct (raySphereT (segRay seg) (target s)) as [t|].
  - destruct (t <? #0) eqn:Ht, (t >? #1) eqn:Ht'; simpl; split;
      try discriminate;
      try (intros (t' & Heq & H0 & H1 & _); injection Heq as <-; congruence).
    + intros [= <-]. exists t. auto.
    + intros (t' & Heq & _ & _ & ->). injection Heq as <-. reflexivity.
  - split; [discriminate | intros (t & Heq & _); discriminate].
Qed.
End collision_facts.

(** C4: [raySphereT] returns none exactly when the discriminant is negative
    and the near root otherwise, whatever its sign; [intersectRaySphere]
    returns none exactly when there is no root or the root is negative, and
    otherwise the contact with [position = origin + t·direction],
    [normal = normalize(position − sphere.position)] and the sphere as
    [geometry].  This holds in every arithmetic, so for every ray, with or
    without a zero direction. *)
Theorem raySphereT_intersectRaySphere_spec :
  forall (num : Type) (A : Arith num) (ray : Ray num) (s : ref (Sphere num)),
    (raySphereT ray (target s) = None <->
       (spec_discriminant ray (target s) <? #0)%js = true) /\
    (forall t, raySphereT ray (target s) = Some t <->
       (spec_discriminant ray (target s) <? #0)%js = false /\
       t = spec_nearRoot ray (target s)) /\
    (intersectRaySphere ray s = None <->
       raySphereT ray (target s) = None \/
       exists t, raySphereT ray (target s) = Some t /\ (t <? #0)%js = true) /\
    (forall c, intersectRaySphere ray s = Some c <->
       exists t, raySphereT ray (target s) = Some t /\ (t <? #0)%js = false /\
         position c = vec3.scaleAndAdd (origin ray) (direction ray) t /\
         normal c =
           vec3.normalize
             (vec3.subtract (position c) (sphere_position (target s))) /\
         geometry c = s).
Proof.
  intros num A ray s. repeat split.
  - rewrite raySphereT_eq. destruct (_ <? _)%js; congruence.
  - rewrite raySphereT_eq. destruct (_ <? _)%js; congruence.
  - rewrite raySphereT_eq in H. destruct (_ <? _)%js; congruence.
  - rewrite raySphereT_eq in H. destruct (_ <? _)%js; congruence.
  - intros [Hd ->]. rewrite raySphereT_eq, Hd. reflexivity.
  - rewrite intersectRaySphere_eq.
    destruct (raySphereT ray (target s)) as [t|]; [|auto].
    destruct (t <? #0)%js eqn:Ht; [|discriminate]. right. eauto.
  - rewrite intersectRaySphere_eq.
    intros [-> | (t & -> & ->)]; reflexivity.
  - rewrite intersectRaySphere_Some. intros (t & Ht & Hneg & ->).
    exists t. repeat split; assumption.
  - intros (t & Ht & Hneg & Hp & Hn & Hg).
    apply intersectRaySphere_Some. exists t. repeat split; try assumption.
    destruct c as [p n g]. simpl in *. subst. reflexivity.
Qed.

(** The comparison of exact arithmetic decides [<]. *)
Lemma Rltb_true (x y : R) : Rltb x y = true <-> (x < y)%R.
Proof. unfold Rltb. destruct (Rlt_dec x y); split; auto; discriminate. Qed.

Lemma Rltb_false (x y : R) : Rltb x y = false <-> (y <= x)%R.
Proof.
  unfold Rltb. destruct (Rlt_dec x y); split; auto; try discriminate; lra.
Qed.





(** C10: the ray of a pixel starts at the origin and its direction has
    z-component [-1], whatever the dimensions, the camera and the pixel; so
    the direction is not the zero vector, in exact arithmetic and in
    binary64. *)
Theorem rayForPixel_origin_direction :
  (forall (num : Type) (A : Arith num) (M : MathEnv num)
          (dims : Dimensions num) (camera : Camera num) (x y : num),
     let r := rayForPixel (Viewport_new M dims camera) x y in
     origin r = (vec3.fromValues #0 #0 #0)%js /\
     vec3.z (direction r) = (- #1)%js) /\
  (forall (div0 : R -> R) (M : MathEnv R) (dims : Dimensions R)
          (camera : Camera R) (x y : R),
     let r := rayForPixel (arith := Rarith div0)
                (Viewport_new (arith := Rarith div0) M dims camera) x y in
     vec3.z (direction r) = (-1)%R /\
     direction r <> vec3.fromValues 0%R 0%R 0%R) /\
  (forall (M : MathEnv float) (dims : Dimensions float) (camera : Camera float)
          (x y : float),
     let r := rayForPixel (Viewport_new M dims camera) x y in
     vec3.z (direction r) = (-1)%float /\
     PrimFloat.eqb (vec3.z (direction r)) 0 = false /\
     direction r <> vec3.fromValues 0%float 0%float 0%float).
Proof.
  repeat split.
  - intros H. apply (f_equal vec3.z) in H. simpl in H. lra.
  - intros H. apply (f_equal (fun v => PrimFloat.eqb (vec3.z v) 0)) in H.
    vm_compute in H. discriminate.
Qed.

(** ** Control flow of [radianceForRay], for every arithmetic *)

Section trace_facts.
Context {num : Type} {arith : Arith num}.
Local Open Scope js_scope.

Lemma sort_insert_not_nil {A} (cmp : A -> A -> num) a l :
  sort_insert cmp a l <> [].
Proof. destruct l as [|b l]; simpl; [|destruct (_ <? _)]; discriminate. Qed.

Lemma Array_sort_nil {A} (cmp : A -> A -> num) l :
  Array_sort cmp l = [] <-> l = [].
Proof.
  destruct l as [|a l]; simpl; [tauto|].
  split; [|discriminate]. intros E. now apply sort_insert_not_nil in E.
Qed.

Lemma sort_insert_In {A} (cmp : A -> A -> num) a l c :
  In c (sort_insert cmp a l) <-> c = a \/ In c l.
Proof.
  induction l as [|b l IH]; simpl.
  - intuition congruence.
  - destruct (_ <? _); simpl; rewrite ?IH; intuition congruence.
Qed.

Lemma Array_sort_In {A} (cmp : A -> A -> num) l c :
  In c (Array_sort cmp l) <-> In c l.
Proof.
  induction l as [|a l IH]; simpl; [tauto|].
  rewrite sort_insert_In, IH. intuition congruence.
Qed.

(** The contacts that are sorted: one for every sphere that the ray hits. *)
Lemma In_rayHits (ray : Ray num) (scene : Scene num) c :
  In c (rayHits ray scene) <->
  exists s, In s (sceneSpheres scene) /\ intersectRaySphere ray s = Some c.
Proof.
  unfold rayHits. rewrite Array_sort_In, in_flat_map. fold (sceneSpheres scene).
  split; intros (s & Hs & Hc); exists s; split; auto.
  - destruct (intersectRaySphere ray s) as [c'|]; simpl in Hc;
      intuition congruence.
  - rewrite Hc. simpl. auto.
Qed.


(** One step of the recursion: what [radianceForRay] does at a positive
    depth, with the recursive call at [depth - 1]. *)
Lemma radianceForRay_step (M : MathEnv num) ray scene depth indirectSamples :
  (0 < depth)%Z ->
  radianceForRay M ray scene depth indirectSamples =
  match nearestHit ray scene with
  | None => ret None
  | Some hit =>
      match materials scene !! material (target (geometry hit)) with
      | None => ret None
      | Some material =>
          let* indirectLight :=
            forLoop (Z.to_nat indirectSamples)
              (fun indirectLight =>
                 let* indirectDir :=
                   cosineWeightedHemisphereSample M (normal hit) in
                 let indirectRay :=
                   {| origin := vec3.scaleAndAdd (position hit) (normal hit)
                                  (#1 / #1000);
                      direction := indirectDir |} in
                 let* incomingRadiance :=
                   radianceForRay M indirectRay scene (depth - 1)
                     indirectSamples in
                 match incomingRadiance with
                 | Some incoming =>
                     ret (vec3.add indirectLight
                            (vec3.multiply (albedo material) incoming))
                 | None => ret indirectLight
                 end)
              vec3.create in
          ret (Some (vec3.add (directLight scene hit material)
                       (vec3.scale indirectLight (#1 / ofZ indirectSamples))))
      end
  end.
Proof.
  intros Hd. unfold radianceForRay, nearestHit.
  replace (Z.to_nat depth) with (S (Z.to_nat (depth - 1))) by lia.
  simpl. destruct (rayHits ray scene); reflexivity.
Qed.

Lemma radianceForRay_base (M : MathEnv num) ray scene depth indirectSamples :
  (depth <= 0)%Z ->
  radianceForRay M ray scene depth indirectSamples = ret None.
Proof.
  intros Hd. unfold radianceForRay.
  replace (Z.to_nat depth) with O by lia. reflexivity.
Qed.

Lemma fst_bind_Some {A B} (c : Rand A) (f : A -> B) i :
  fst ((let* a := c in ret (Some (f a))) i) <> None.
Proof. unfold bind, ret. destruct (c i). discriminate. Qed.
End trace_facts.


(** ** Exact arithmetic: vectors and divisions *)

(** Unfolds the arithmetic interface at [Rarith]. *)
Ltac exact_arith :=
  cbn [ofZ nadd nsub nmul ndiv nneg nltb Math_sqrt Math_abs Math_max Math_PI
       Rarith] in *.

Ltac unfold_vec :=
  unfold vec3.scale, vec3.add, vec3.subtract, vec3.multiply, vec3.dot,
    vec3.sqrLen, vec3.scaleAndAdd, vec3.cross, vec3.create,
    Exact.norm2, Exact.dot, Exact.minus, Exact.cross, Exact.vec in *;
  cbn [vec3.x vec3.y vec3.z] in *; exact_arith.

Lemma Rdiv0_nz (div0 : R -> R) (x y : R) :
  y <> 0%R -> Rdiv0 div0 x y = (x / y)%R.
Proof. intros Hy. unfold Rdiv0. destruct (Req_dec_T y 0); tauto. Qed.

Section exact_vectors.
Context (div0 : R -> R).
#[local] Hint Extern 0 (Arith R) => exact (Rarith div0) : typeclass_instances.
Import Exact.
Local Open Scope R_scope.

(** gl-matrix's operations are the mathematical ones. *)
Lemma dot_exact (a b : vec3.t R) : vec3.dot a b = dot a b.
Proof. reflexivity. Qed.

Lemma sqrLen_exact (v : vec3.t R) : vec3.sqrLen v = norm2 v.
Proof. reflexivity. Qed.

Lemma subtract_exact (a b : vec3.t R) : vec3.subtract a b = minus a b.
Proof. reflexivity. Qed.

Lemma cross_exact (a b : vec3.t R) : vec3.cross a b = cross a b.
Proof. reflexivity. Qed.

Lemma norm2_nonneg (v : vec3.t R) : 0 <= norm2 v.
Proof. unfold_vec. nra. Qed.

Lemma norm2_zero (v : vec3.t R) : norm2 v = 0 -> v = vec 0 0 0.
Proof.
  destruct v as [a b c]. unfold_vec. intros H.
  assert (a = 0) by nra. assert (b = 0) by nra. assert (c = 0) by nra.
  subst. reflexivity.
Qed.

Lemma norm2_pos (v : vec3.t R) : v <> vec 0 0 0 -> 0 < norm2 v.
Proof.
  intros Hv. destruct (norm2_nonneg v) as [H|H]; [assumption|].
  exfalso. apply Hv, norm2_zero. auto.
Qed.

Lemma norm2_pos_nonzero (v : vec3.t R) : 0 < norm2 v -> v <> vec 0 0 0.
Proof. intros Hpos ->. unfold_vec. lra. Qed.

Lemma minus_zero (a b : vec3.t R) : minus a b = vec 0 0 0 -> a = b.
Proof. destruct a, b. unfold_vec. intros [= H1 H2 H3]. f_equal; lra. Qed.

Lemma length_sqr (v : vec3.t R) : (length v)² = norm2 v.
Proof. unfold length. apply Rsqr_sqrt, norm2_nonneg. Qed.

Lemma length_pos (v : vec3.t R) : 0 < norm2 v -> 0 < length v.
Proof. intros H. apply sqrt_lt_R0. exact H. Qed.

Lemma dot_comm (a b : vec3.t R) : dot a b = dot b a.
Proof. unfold_vec. ring. Qed.

Lemma cross_dot_l (a b : vec3.t R) : dot (cross a b) a = 0.
Proof. unfold_vec. ring. Qed.

Lemma cross_dot_r (a b : vec3.t R) : dot (cross a b) b = 0.
Proof. unfold_vec. ring. Qed.

(** Lagrange's identity. *)
Lemma norm2_cross (a b : vec3.t R) :
  norm2 (cross a b) = norm2 a * norm2 b - dot a b * dot a b.
Proof. unfold_vec. ring. Qed.

Lemma norm2_scale (v : vec3.t R) (k : R) :
  norm2 (vec3.scale v k) = k * k * norm2 v.
Proof. unfold_vec. ring. Qed.

Lemma dot_scale_l (v w : vec3.t R) (k : R) :
  dot (vec3.scale v k) w = k * dot v w.
Proof. unfold_vec. ring. Qed.

(** Away from the zero vector, gl-matrix's [normalize] divides by a square
    root that is not zero, and is [v/|v|]. *)
Lemma normalize_scale (v : vec3.t R) :
  0 < norm2 v -> vec3.normalize v = vec3.scale v (/ length v).
Proof.
  intros Hpos. pose proof (length_pos v Hpos) as Hl.
  unfold vec3.normalize. rewrite sqrLen_exact. exact_arith.
  unfold Rltb. destruct (Rlt_dec 0 (norm2 v)); [|lra].
  fold (length v). rewrite Rdiv0_nz by lra.
  unfold vec3.scale. exact_arith. f_equal; unfold Rdiv; ring.
Qed.

Lemma normalize_unitVector (v : vec3.t R) :
  v <> vec 0 0 0 -> vec3.normalize v = unitVector v.
Proof.
  intros Hv. rewrite normalize_scale by (apply norm2_pos; assumption).
  unfold vec3.scale, unitVector, vec. exact_arith. reflexivity.
Qed.

Lemma norm2_normalize (v : vec3.t R) :
  0 < norm2 v -> norm2 (vec3.normalize v) = 1.
Proof.
  intros Hpos. rewrite normalize_scale, norm2_scale by assumption.
  pose proof (length_pos v Hpos) as Hl.
  rewrite <- (length_sqr v). unfold Rsqr. field. lra.
Qed.

(** A vector keeps its sign under sums, products and non-negative
    factors. *)
Lemma nonneg_create : nonneg vec3.create.
Proof. unfold nonneg. unfold_vec. lra. Qed.

Lemma nonneg_add (a b : vec3.t R) :
  nonneg a -> nonneg b -> nonneg (vec3.add a b).
Proof. unfold nonneg. unfold_vec. lra. Qed.

Lemma nonneg_multiply (a b : vec3.t R) :
  nonneg a -> nonneg b -> nonneg (vec3.multiply a b).
Proof. unfold nonneg. unfold_vec. nra. Qed.

Lemma nonneg_scale (a : vec3.t R) (k : R) :
  nonneg a -> 0 <= k -> nonneg (vec3.scale a k).
Proof. unfold nonneg. unfold_vec. nra. Qed.
End exact_vectors.

(** ** Shading, in exact arithmetic *)

Section shading_exact.
Context (div0 : R -> R).
#[local] Hint Extern 0 (Arith R) => exact (Rarith div0) : typeclass_instances.
Import Exact.
Local Open Scope R_scope.





Lemma evaluatePointLight_channels (light : Light R) (contact : Contact R)
  (material : Material R) :
  light_position light <> position contact ->
  evaluatePointLight light contact material =
  vec (pointLightChannel (vec3.x (albedo material)) light contact)
      (pointLightChannel (vec3.y (albedo material)) light contact)
      (pointLightChannel (vec3.z (albedo material)) light contact).
Proof.
  intros Hne.
  set (toLight := minus (light_position light) (position contact)).
  assert (Hnz : toLight <> vec 0 0 0).
  { intros E. apply Hne. apply minus_zero. exact E. }
  pose proof (norm2_pos toLight Hnz) as Hpos.
  pose proof PI_RGT_0 as Hpi.
  unfold evaluatePointLight, lambertTerm, pointLightChannel.
  rewrite subtract_exact, sqrLen_exact, dot_exact. fold toLight.
  rewrite length_sqr, (normalize_unitVector div0 toLight Hnz).
  unfold vec3.scale, vec. cbn [vec3.x vec3.y vec3.z].
  cbn [ofZ nmul ndiv Math_max Math_PI Rarith].
  rewrite !Rdiv0_nz by lra.
  f_equal; field; split; lra.
Qed.

(** C7: for a light that is not at the contact position,
    [evaluatePointLight] returns, in every channel,
    [(albedo/π) · max(dot(normalize(toLight), normal), 0)
     · (radiantPower/(4π)) · (1/|toLight|²)]
    with [toLight = light.position − contact.position], and the
    [normalize] of the code is [toLight/|toLight|] there. *)
Theorem evaluatePointLight_spec :
  forall (light : Light R) (contact : Contact R) (material : Material R),
    light_position light <> position contact ->
    evaluatePointLight light contact material =
    vec (pointLightChannel (vec3.x (albedo material)) light contact)
        (pointLightChannel (vec3.y (albedo material)) light contact)
        (pointLightChannel (vec3.z (albedo material)) light contact) /\
    vec3.normalize (vec3.subtract (light_position light) (position contact)) =
    unitVector (minus (light_position light) (position contact)).
Proof.
  intros light contact material Hne. split.
  - apply evaluatePointLight_channels. exact Hne.
  - rewrite subtract_exact. apply normalize_unitVector. intros E. apply Hne.
    apply minus_zero. exact E.
Qed.
End shading_exact.


Lemma evaluatePointLight_spec_witness :
  light_position Exact.lamp <> position Exact.hit /\
  vec3.x (evaluatePointLight (arith := Rarith Exact.anyDiv0)
            Exact.lamp Exact.hit
            {| albedo := Exact.vec (1/2) (1/2) (1/2) |}) =
  Exact.pointLightChannel (1/2) Exact.lamp Exact.hit.
Proof.
  assert (H : light_position Exact.lamp <> position Exact.hit).
  { intros E. apply (f_equal vec3.x) in E. simpl in E. lra. }
  split; [exact H|].
  destruct (evaluatePointLight_spec Exact.anyDiv0 Exact.lamp Exact.hit
              {| albedo := Exact.vec (1/2) (1/2) (1/2) |} H) as [E _].
  rewrite E. reflexivity.
Defined.

(** ** Hemisphere sampling, in exact arithmetic *)

Section sampling_exact.
Context (div0 : R -> R).
#[local] Hint Extern 0 (Arith R) => exact (Rarith div0) : typeclass_instances.
Import Exact.
Local Open Scope R_scope.

(** The reference axis is never parallel to a unit normal. *)
Lemma cross_referenceAxis_pos (n : vec3.t R) :
  norm2 n = 1 -> 0 < norm2 (cross n (referenceAxis n)).
Proof.
  intros Hn. rewrite norm2_cross, Hn. unfold referenceAxis.
  destruct n as [a b c]. cbn [vec3.y].
  destruct (Rlt_dec (Rabs b) (9 / 10)) as [Hb|Hb]; unfold_vec.
  - apply Rabs_def2 in Hb. nra.
  - assert (81 / 100 <= b * b).
    { unfold Rabs in Hb. destruct (Rcase_abs b); nra. }
    nra.
Qed.

Lemma arbitraryBasis_columns (n : vec3.t R) :
  column0 (arbitraryBasis n) = vec3.normalize (cross n (referenceAxis n)) /\
  column1 (arbitraryBasis n) = cross n (column0 (arbitraryBasis n)) /\
  column2 (arbitraryBasis n) = n.
Proof.
  rewrite <- !cross_exact with (div0 := div0).
  unfold arbitraryBasis, column0, column1, column2, referenceAxis, X, Y, vec.
  exact_arith. rewrite Rdiv0_nz by lra. unfold Rltb.
  destruct (Rlt_dec (Rabs (vec3.y n)) (9 / 10));
    cbn [mat3.m00 mat3.m01 mat3.m02 mat3.m10 mat3.m11 mat3.m12
         mat3.m20 mat3.m21 mat3.m22];
    repeat split;
    repeat match goal with
      | |- context [vec3.normalize ?v] => destruct (vec3.normalize v)
      | |- context [vec3.cross ?v ?w] => destruct (vec3.cross v w)
      end; try reflexivity; destruct n; reflexivity.
Qed.

Lemma arbitraryBasis_orthonormal (n : vec3.t R) :
  norm2 n = 1 ->
  orthonormal (column0 (arbitraryBasis n)) (column1 (arbitraryBasis n))
    (column2 (arbitraryBasis n)).
Proof.
  intros Hn. destruct (arbitraryBasis_columns n) as (E0 & E1 & E2).
  rewrite E1, E2. rewrite E0.
  pose proof (cross_referenceAxis_pos n Hn) as Hpos.
  set (w := cross n (referenceAxis n)) in *.
  assert (Hx : norm2 (vec3.normalize w) = 1)
    by (apply norm2_normalize; assumption).
  assert (Hxn : dot (vec3.normalize w) n = 0).
  { rewrite normalize_scale, dot_scale_l by assumption.
    unfold w. rewrite cross_dot_l. ring. }
  unfold orthonormal. repeat split.
  - exact Hx.
  - rewrite norm2_cross, Hn, Hx, (dot_comm n), Hxn. ring.
  - exact Hn.
  - rewrite dot_comm. apply cross_dot_r.
  - exact Hxn.
  - apply cross_dot_l.
Qed.

(** [transformMat3] applies the matrix: it combines the columns. *)
Lemma transformMat3_columns (v : vec3.t R) (m : mat3.t R) :
  vec3.transformMat3 v m = combination (column0 m) (column1 m) (column2 m) v.
Proof.
  unfold vec3.transformMat3, combination, column0, column1, column2, vec.
  cbn [vec3.x vec3.y vec3.z]. exact_arith. f_equal; ring.
Qed.

Lemma norm2_combination (a b c v : vec3.t R) :
  orthonormal a b c -> norm2 (combination a b c v) = norm2 v.
Proof.
  intros (Ha & Hb & Hc & Hab & Hac & Hbc).
  destruct v as [p q r].
  transitivity (p * p * norm2 a + q * q * norm2 b + r * r * norm2 c
                + 2 * p * q * dot a b + 2 * p * r * dot a c
                + 2 * q * r * dot b c).
  - unfold combination. unfold_vec. ring.
  - rewrite Ha, Hb, Hc, Hab, Hac, Hbc. unfold_vec. ring.
Qed.

Lemma dot_combination (a b c v : vec3.t R) :
  orthonormal a b c -> dot (combination a b c v) c = vec3.z v.
Proof.
  intros (Ha & Hb & Hc & Hab & Hac & Hbc).
  destruct v as [p q r].
  transitivity (p * dot a c + q * dot b c + r * norm2 c).
  - unfold combination. unfold_vec. ring.
  - rewrite Hc, Hac, Hbc. cbn [vec3.z]. ring.
Qed.

(** Malley's point lies on the upper unit hemisphere. *)
Lemma malley_hemisphere (u1 u2 : R) :
  0 <= u1 <= 1 ->
  norm2 (malley u1 u2) = 1 /\ 0 <= vec3.z (malley u1 u2).
Proof.
  intros Hu. unfold malley. cbv zeta.
  set (x := sqrt u1 * cos (2 * PI * u2)).
  set (y := sqrt u1 * sin (2 * PI * u2)).
  assert (Hxy : x² + y² = u1).
  { unfold x, y, Rsqr.
    pose proof (sin2_cos2 (2 * PI * u2)) as H. unfold Rsqr in H.
    pose proof (sqrt_sqrt u1 (proj1 Hu)) as Hs.
    transitivity (sqrt u1 * sqrt u1 *
                  (sin (2 * PI * u2) * sin (2 * PI * u2)
                   + cos (2 * PI * u2) * cos (2 * PI * u2))); [ring|].
    rewrite H, Hs. ring. }
  split.
  - unfold_vec. rewrite Rmax_right by lra.
    rewrite sqrt_sqrt by lra. unfold Rsqr in *. lra.
  - cbn [vec3.z vec]. apply sqrt_pos.
Qed.

Lemma cosineWeightedHemisphereSampleZ_malley (u : nat -> R) (i : nat) :
  cosineWeightedHemisphereSampleZ (RMath u) i =
  (malley (u i) (u (S i)), S (S i)).
Proof.
  unfold cosineWeightedHemisphereSampleZ, bind, ret, Math_random, malley.
  cbn [draws Math_cos Math_sin RMath]. exact_arith.
  replace (u (S i) * 2 * PI) with (2 * PI * u (S i)) by ring.
  unfold Rsqr, vec. reflexivity.
Qed.

Lemma cosineWeightedHemisphereSample_eq (u : nat -> R) (i : nat)
  (n : vec3.t R) :
  cosineWeightedHemisphereSample (RMath u) n i =
  (combination (column0 (arbitraryBasis n)) (column1 (arbitraryBasis n))
     (column2 (arbitraryBasis n)) (malley (u i) (u (S i))),
   S (S i)).
Proof.
  unfold cosineWeightedHemisphereSample, bind.
  rewrite cosineWeightedHemisphereSampleZ_malley. unfold ret.
  rewrite transformMat3_columns. reflexivity.
Qed.

(** The sample is a unit vector in the half-space of the normal. *)
Lemma sample_unit (u : nat -> R) (i : nat) (n : vec3.t R) :
  norm2 n = 1 -> 0 <= u i <= 1 ->
  norm2 (fst (cosineWeightedHemisphereSample (RMath u) n i)) = 1 /\
  0 <= dot (fst (cosineWeightedHemisphereSample (RMath u) n i)) n.
Proof.
  intros Hn Hu. rewrite cosineWeightedHemisphereSample_eq. cbn [fst].
  pose proof (arbitraryBasis_orthonormal n Hn) as Horth.
  destruct (malley_hemisphere (u i) (u (S i)) Hu) as [Hlen Hz].
  split.
  - rewrite norm2_combination by assumption. exact Hlen.
  - destruct (arbitraryBasis_columns n) as (_ & _ & E2).
    rewrite <- E2 at 4. rewrite dot_combination by assumption. exact Hz.
Qed.

(** C6: for a unit normal and two draws in [0, 1),
    [cosineWeightedHemisphereSample] returns a vector of length 1 whose dot
    product with the normal is not negative.  The vector is Malley's point
    (disk point [r = √U₁], [θ = 2πU₂], lifted by [z = √max(0, 1−x²−y²)])
    taken through the matrix of [arbitraryBasis]: its columns are
    orthonormal, the third is the normal, and the first is the unit vector
    of [normal × reference], where the reference axis is world Y when
    [|normal_y| < 0.9] and world X otherwise.  Two draws are used. *)
Theorem cosineWeightedHemisphereSample_spec :
  forall (u : nat -> R) (i : nat) (normal : vec3.t R),
    norm2 normal = 1 ->
    0 <= u i < 1 -> 0 <= u (S i) < 1 ->
    let sample := fst (cosineWeightedHemisphereSample (RMath u) normal i) in
    let basis := arbitraryBasis normal in
    norm2 sample = 1 /\
    length sample = 1 /\
    0 <= dot sample normal /\
    sample = vec3.transformMat3 (malley (u i) (u (S i))) basis /\
    orthonormal (column0 basis) (column1 basis) (column2 basis) /\
    column2 basis = normal /\
    column0 basis = unitVector (cross normal (referenceAxis normal)) /\
    column1 basis = cross normal (column0 basis) /\
    snd (cosineWeightedHemisphereSample (RMath u) normal i) = S (S i).
Proof.
  intros u i n Hn Hu1 Hu2 sample basis.
  destruct (sample_unit u i n Hn) as [Hsq Hdot]; [lra|].
  fold sample in Hsq, Hdot.
  destruct (arbitraryBasis_columns n) as (E0 & E1 & E2).
  fold basis in E0, E1, E2.
  split; [exact Hsq|].
  split; [unfold length; rewrite Hsq; apply sqrt_1|].
  split; [exact Hdot|].
  split.
  { unfold sample, cosineWeightedHemisphereSample, bind.
    rewrite cosineWeightedHemisphereSampleZ_malley. reflexivity. }
  split; [exact (arbitraryBasis_orthonormal n Hn)|].
  split; [exact E2|].
  split; [|split; [exact E1|]].
  - rewrite E0. apply normalize_unitVector. apply norm2_pos_nonzero.
    apply cross_referenceAxis_pos. exact Hn.
  - unfold cosineWeightedHemisphereSample, bind.
    rewrite cosineWeightedHemisphereSampleZ_malley. reflexivity.
Qed.
End sampling_exact.

Lemma cosineWeightedHemisphereSample_spec_witness :
  Exact.norm2 (Exact.vec 0 0 1) = 1%R /\
  (0 <= 1 / 4 < 1)%R /\
  Exact.norm2
    (fst (cosineWeightedHemisphereSample (arith := Rarith Exact.anyDiv0)
            (RMath (fun _ => (1 / 4)%R)) (Exact.vec 0 0 1) 0)) = 1%R.
Proof.
  assert (Hn : Exact.norm2 (Exact.vec 0 0 1) = 1%R) by (unfold_vec; ring).
  assert (Hu : (0 <= 1 / 4 < 1)%R) by lra.
  split; [exact Hn|]. split; [exact Hu|].
  apply (cosineWeightedHemisphereSample_spec Exact.anyDiv0
           (fun _ => (1 / 4)%R) 0%nat (Exact.vec 0 0 1) Hn Hu Hu).
Defined.

(** ** The tracer, in exact arithmetic *)

Section trace_exact.
Context (div0 : R -> R).
#[local] Hint Extern 0 (Arith R) => exact (Rarith div0) : typeclass_instances.
Import Exact.
Local Open Scope R_scope.

(** The parameter that [raySphereT] returns for a ray with a direction is
    a root of [|o + t·d − c|² = r²]: the point at [t] is on the sphere. *)
Lemma raySphereT_on_sphere (ray : Ray R) (s : Sphere R) (t : R) :
  0 < norm2 (direction ray) ->
  raySphereT ray s = Some t ->
  norm2 (minus (vec3.scaleAndAdd (origin ray) (direction ray) t)
           (sphere_position s)) = radius s * radius s.
Proof.
  intros Ha. unfold raySphereT.
  rewrite !sqrLen_exact, dot_exact, subtract_exact.
  set (oc := minus (origin ray) (sphere_position s)).
  set (a := norm2 (direction ray)) in *.
  exact_arith.
  set (b := 2 * dot oc (direction ray)).
  set (cc := norm2 oc - radius s * radius s).
  set (D := b * b - 4 * a * cc).
  destruct (Rltb D 0) eqn:HD; [discriminate|]. apply Rltb_false in HD.
  rewrite Rdiv0_nz by lra. intros [= <-].
  set (t := (- b - sqrt D) / (2 * a)).
  assert (Ht : 2 * a * t + b = - sqrt D) by (unfold t; field; lra).
  assert (Hroot : a * (t * t) + b * t + cc = 0).
  { apply Rmult_eq_reg_l with (4 * a); [|lra].
    replace (4 * a * (a * (t * t) + b * t + cc))
      with ((2 * a * t + b) * (2 * a * t + b) - D) by (unfold D; ring).
    rewrite Ht. replace (- sqrt D * - sqrt D) with (sqrt D * sqrt D) by ring.
    rewrite sqrt_sqrt by exact HD. ring. }
  transitivity (a * (t * t) + b * t + cc + radius s * radius s); [|lra].
  unfold cc, b, a, oc. destruct ray as [o d], s as [r c m].
  cbn [origin direction sphere_position radius]. unfold_vec. ring.
Qed.

(** It is the near root: no root of the quadratic is smaller. *)
Lemma raySphereT_near_root (ray : Ray R) (s : Sphere R) (t t' : R) :
  0 < norm2 (direction ray) ->
  raySphereT ray s = Some t ->
  norm2 (minus (vec3.scaleAndAdd (origin ray) (direction ray) t')
           (sphere_position s)) = radius s * radius s ->
  t <= t'.
Proof.
  intros Ha. unfold raySphereT.
  rewrite !sqrLen_exact, dot_exact, subtract_exact.
  set (oc := minus (origin ray) (sphere_position s)).
  set (a := norm2 (direction ray)) in *.
  exact_arith.
  set (b := 2 * dot oc (direction ray)).
  set (cc := norm2 oc - radius s * radius s).
  set (D := b * b - 4 * a * cc).
  destruct (Rltb D 0) eqn:HD; [discriminate|]. apply Rltb_false in HD.
  rewrite Rdiv0_nz by lra. intros [= <-] Hon.
  assert (Hroot : a * (t' * t') + b * t' + cc = 0).
  { transitivity
      (norm2 (minus (vec3.scaleAndAdd (origin ray) (direction ray) t')
                (sphere_position s)) - radius s * radius s);
      [|rewrite Hon; ring].
    unfold cc, b, a, oc. destruct ray as [o d], s as [r c m].
    cbn [origin direction sphere_position radius]. unfold_vec. ring. }
  pose proof (sqrt_pos D) as Hs0. pose proof (sqrt_sqrt D HD) as Hs.
  set (q := sqrt D) in *.
  assert (Hsq : (2 * a * t' + b) * (2 * a * t' + b) = q * q).
  { rewrite Hs. unfold D. nra. }
  assert (Hge : - q <= 2 * a * t' + b) by nra.
  apply Rmult_le_reg_l with (2 * a); [lra|].
  replace (2 * a * ((- b - q) / (2 * a))) with (- b - q) by (field; lra).
  lra.
Qed.

Lemma contact_on_sphere (ray : Ray R) (s : ref (Sphere R)) (c : Contact R) :
  0 < norm2 (direction ray) ->
  intersectRaySphere ray s = Some c ->
  norm2 (minus (position c) (sphere_position (target s)))
  = radius (target s) * radius (target s).
Proof.
  intros Ha Hc. apply intersectRaySphere_Some in Hc as (t & Ht & _ & ->).
  cbn [position contactAt]. apply raySphereT_on_sphere; assumption.
Qed.

Lemma contact_normal_unit (ray : Ray R) (s : ref (Sphere R)) (c : Contact R) :
  0 < norm2 (direction ray) -> 0 < radius (target s) ->
  intersectRaySphere ray s = Some c ->
  norm2 (normal c) = 1.
Proof.
  intros Ha Hr Hc. pose proof (contact_on_sphere ray s c Ha Hc) as Hon.
  apply intersectRaySphere_Some in Hc as (t & Ht & _ & ->).
  cbn [normal position contactAt] in *. rewrite subtract_exact.
  apply norm2_normalize. rewrite Hon. nra.
Qed.

(** The hit of [radianceForRay] is the contact of the ray with a sphere of
    the scene. *)
Lemma hit_of_sphere (ray : Ray R) (scene : Scene R) (hit : Contact R) rest :
  rayHits ray scene = hit :: rest ->
  exists s, In s (sceneSpheres scene) /\ intersectRaySphere ray s = Some hit.
Proof.
  intros E. apply In_rayHits. rewrite E. simpl. auto.
Qed.

Lemma pointLightChannel_nonneg (a : R) (light : Light R) (contact : Contact R) :
  0 <= a -> 0 <= radiantPower light ->
  light_position light <> position contact ->
  0 <= pointLightChannel a light contact.
Proof.
  intros Ha Hp Hne. unfold pointLightChannel.
  set (toLight := minus (light_position light) (position contact)).
  assert (Hpos : 0 < norm2 toLight).
  { apply norm2_pos. intros E. apply Hne, minus_zero. exact E. }
  rewrite length_sqr. pose proof PI_RGT_0 as Hpi.
  apply Rmult_le_pos; [apply Rmult_le_pos; [apply Rmult_le_pos|]|].
  - unfold Rdiv. apply Rmult_le_pos; [lra|].
    left. apply Rinv_0_lt_compat. lra.
  - apply Rmax_r.
  - unfold Rdiv. apply Rmult_le_pos; [lra|].
    left. apply Rinv_0_lt_compat. lra.
  - left. apply Rdiv_lt_0_compat; lra.
Qed.

Lemma evaluatePointLight_nonneg (light : Light R) (contact : Contact R)
  (material : Material R) :
  nonneg (albedo material) -> 0 <= radiantPower light ->
  light_position light <> position contact ->
  nonneg (evaluatePointLight light contact material).
Proof.
  intros (Hx & Hy & Hz) Hp Hne.
  rewrite (evaluatePointLight_channels div0 light contact material Hne).
  unfold nonneg, vec. cbn [vec3.x vec3.y vec3.z].
  repeat split; apply pointLightChannel_nonneg; assumption.
Qed.

Lemma fold_add_nonneg (l : list (vec3.t R)) (acc : vec3.t R) :
  nonneg acc -> (forall v, In v l -> nonneg v) ->
  nonneg (fold_left vec3.add l acc).
Proof.
  revert acc. induction l as [|v l IH]; intros acc Hacc Hl; simpl; auto.
  apply IH.
  - apply nonneg_add; auto. apply Hl. simpl. auto.
  - intros w Hw. apply Hl. simpl. auto.
Qed.

Lemma directLight_nonneg (scene : Scene R) (hit : Contact R)
  (material : Material R) :
  nonneg (albedo material) -> lightsPositive scene ->
  (forall l, In l (sceneLights scene) ->
             light_position (target l) <> position hit) ->
  nonneg (directLight scene hit material).
Proof.
  intros Halb Hpow Hoff. unfold directLight. fold (sceneLights scene).
  apply fold_add_nonneg; [apply nonneg_create|].
  intros v Hv. apply in_map_iff in Hv as (l & <- & Hl).
  destruct (occluded scene hit l); [apply nonneg_create|].
  apply evaluatePointLight_nonneg; auto. left. apply Hpow. exact Hl.
Qed.

Lemma forLoop_invariant {S} (P : S -> Prop) (body : S -> Rand S) (n : nat) :
  (forall acc i, P acc -> P (fst (body acc i))) ->
  forall acc i, P acc -> P (fst (forLoop n body acc i)).
Proof.
  intros Hbody. induction n as [|n IH]; intros acc i Hacc; simpl; auto.
  unfold bind. specialize (Hbody acc i Hacc).
  destruct (body acc i) as [acc' j]. apply IH. exact Hbody.
Qed.

(** The radiance along a ray with a direction has no negative channel,
    at every depth. *)
Lemma radianceAtDepth_nonneg (u : nat -> R) (scene : Scene R)
  (indirectSamples : Z) :
  albedosNonneg scene -> lightsPositive scene -> radiiPositive scene ->
  lightsOffSurfaces scene -> drawsInRange u -> (1 <= indirectSamples)%Z ->
  forall (depth : nat) (ray : Ray R) (i : nat),
    0 < norm2 (direction ray) ->
    match fst (radianceAtDepth (RMath u) scene indirectSamples depth ray i) with
    | Some radiance => nonneg radiance
    | None => True
    end.
Proof.
  intros Halb Hpow Hrad Hoff Hu Hn.
  induction depth as [|depth IH]; intros ray i Hdir; [exact I|].
  cbn [radianceAtDepth].
  destruct (rayHits ray scene) as [|hit rest] eqn:Hhits; [exact I|].
  destruct (materials scene !! material (target (geometry hit)))
    as [m|] eqn:Hm; [|exact I].
  destruct (hit_of_sphere ray scene hit rest Hhits) as (s & Hs & Hc).
  pose proof (contact_on_sphere ray s hit Hdir Hc) as Hon.
  pose proof (contact_normal_unit ray s hit Hdir (Hrad s Hs) Hc) as Hnormal.
  unfold bind at 1.
  match goal with
  | |- context [forLoop ?k ?body ?acc i] =>
      pose proof (forLoop_invariant nonneg body k) as Hloop;
      destruct (forLoop k body acc i) as [indirect j] eqn:Eloop
  end.
  cbn [ret fst].
  apply nonneg_add.
  - apply directLight_nonneg; [exact (Halb _ _ Hm) | exact Hpow |].
    intros l Hl E. apply (Hoff l s Hl Hs). rewrite E. exact Hon.
  - apply nonneg_scale.
    + change indirect with (fst (indirect, j)). rewrite <- Eloop.
      apply Hloop; [|apply nonneg_create].
      intros acc k Hacc. unfold bind.
      destruct (sample_unit div0 u k (normal hit) Hnormal) as [Hlen _].
      { specialize (Hu k). lra. }
      destruct (cosineWeightedHemisphereSample (RMath u) (normal hit) k)
        as [dir k'].
      cbn [fst] in Hlen.
      match goal with
      | |- context [radianceAtDepth ?M ?sc ?n depth ?r k'] =>
          specialize (IH r k');
          destruct (radianceAtDepth M sc n depth r k') as [[incoming|] k'']
      end; cbn [ret fst] in *; [|exact Hacc].
      apply nonneg_add; [exact Hacc|].
      apply nonneg_multiply; [exact (Halb _ _ Hm)|].
      apply IH. cbn [direction]. rewrite Hlen. lra.
    + exact_arith. assert (1 <= IZR indirectSamples) by (apply IZR_le in Hn; exact Hn).
      rewrite Rdiv0_nz by lra. apply Rlt_le, Rdiv_lt_0_compat; lra.
Qed.

(** C3 (amended): for every ray with a direction, every scene with
    non-negative albedos, positive radiant powers and positive radii in
    which no light lies on the surface of a sphere (so no light is at a
    contact point), draws in [0, 1), every depth and every
    [indirectSamples >= 1]: whenever [radianceForRay] returns a radiance,
    none of its channels is negative. *)
Theorem radianceForRay_nonneg :
  forall (u : nat -> R) (ray : Ray R) (scene : Scene R)
         (depth indirectSamples : Z) (i : nat),
    albedosNonneg scene -> lightsPositive scene -> radiiPositive scene ->
    lightsOffSurfaces scene -> drawsInRange u ->
    direction ray <> vec 0 0 0 -> (1 <= indirectSamples)%Z ->
    match fst (radianceForRay (RMath u) ray scene depth indirectSamples i) with
    | Some radiance => nonneg radiance
    | None => True
    end.
Proof.
  intros u ray scene depth n i Halb Hpow Hrad Hoff Hu Hdir Hn.
  unfold radianceForRay.
  apply radianceAtDepth_nonneg; try assumption.
  apply norm2_pos. exact Hdir.
Qed.
End trace_exact.

Lemma radianceForRay_nonneg_witness :
  Exact.albedosNonneg Exact.scene /\ Exact.lightsPositive Exact.scene /\
  Exact.radiiPositive Exact.scene /\ Exact.lightsOffSurfaces Exact.scene /\
  Exact.drawsInRange (fun _ => (1 / 4)%R) /\
  direction Exact.ray <> Exact.vec 0 0 0 /\ (1 <= 2)%Z /\
  match fst (radianceForRay (arith := Rarith Exact.anyDiv0)
               (RMath (fun _ => (1 / 4)%R)) Exact.ray Exact.scene 2 2 0) with
  | Some radiance => Exact.nonneg radiance
  | None => True
  end.
Proof.
  assert (Halb : Exact.albedosNonneg Exact.scene).
  { intros name m H. cbn [materials Exact.scene] in H.
    apply lookup_insert_Some in H as [[_ <-]|[_ H]].
    - unfold Exact.nonneg. simpl. lra.
    - rewrite lookup_empty in H. discriminate. }
  assert (Hpow : Exact.lightsPositive Exact.scene).
  { intros l [<-|[]]. simpl. lra. }
  assert (Hrad : Exact.radiiPositive Exact.scene).
  { intros s [<-|[]]. simpl. lra. }
  assert (Hoff : Exact.lightsOffSurfaces Exact.scene).
  { intros l s [<-|[]] [<-|[]]. simpl. unfold_vec. lra. }
  assert (Hu : Exact.drawsInRange (fun _ => (1 / 4)%R)).
  { intros i. lra. }
  assert (Hdir : direction Exact.ray <> Exact.vec 0 0 0).
  { intros E. apply (f_equal vec3.z) in E. simpl in E. lra. }
  assert (Hn : (1 <= 2)%Z) by lia.
  repeat (split; [assumption|]).
  exact (radianceForRay_nonneg Exact.anyDiv0 (fun _ => (1 / 4)%R) Exact.ray
           Exact.scene 2 2 0 Halb Hpow Hrad Hoff Hu Hdir Hn).
Defined.

(** C3, as stated, fails when a light is at the contact point: the
    hypotheses hold (albedo (1,0,0), radiant power 1000, one sample), the
    inverse-square falloff is [1/0], the Lambert term is 0, their product is
    NaN, and NaN is not [>= 0]. *)
Lemma radianceForRay_light_at_contact :
  (PrimFloat.leb 0 1 && PrimFloat.leb 0 0 && PrimFloat.ltb 0 1000) = true /\
  radianceForRay Example.Math0 Example.ray
    (Example.scene (Example.vec 0 0 (-2))) 1 1 0
  = (Some (Example.vec nan nan nan), 2%nat) /\
  PrimFloat.leb 0 nan = false.
Proof. vm_compute. repeat split. Qed.

(** A radiance channel may exceed 1: with the light on the camera side of
    the sphere, at (2,2,0), the red channel is about 1.22. *)
Lemma radiance_may_exceed_one :
  match fst (radianceForRay Example.Math0 Example.ray
               (Example.scene (Example.vec 2 2 0)) 1 1 0) with
  | Some radiance =>
      PrimFloat.ltb 1 (vec3.x radiance) && PrimFloat.ltb (vec3.x radiance) 2
  | None => false
  end = true.
Proof. vm_compute. reflexivity. Qed.

(** ** The end-to-end scenario, in binary64 *)

(** C1 (amended): in the scene with one red sphere (centre (0,0,-3),
    radius 1, albedo (1,0,0)) and one light (position (2,2,-3), radiant
    power 1000), the ray from the origin along (0,0,-1) meets the sphere at
    (0,0,-2), where the normal is (0,0,1).  The light lies behind the
    tangent plane there (the cosine is negative), so the Lambert term is
    clamped and the direct lighting is 0 in all three channels.  With
    [depth = 1] and [indirectSamples = 1], [radianceForRay] returns the
    radiance (0,0,0), whatever the random draws; with
    [indirectSamples = 0] the mean of the indirect samples is [0 · (1/0)]
    and every channel is NaN. *)
Theorem radianceForRay_scenario :
  forall (M : MathEnv float) (i : nat),
    let scene := Example.scene (Example.vec 2 2 (-3)) in
    let red := {| albedo := Example.vec 1 0 0 |} in
    let toLight :=
      vec3.subtract (Example.vec 2 2 (-3)) (position Example.hit) in
    rayHits Example.ray scene = [Example.hit] /\
    position Example.hit = Example.vec 0 0 (-2) /\
    materials scene !! material (target (geometry Example.hit)) = Some red /\
    PrimFloat.ltb
      (vec3.dot (vec3.normalize toLight) (normal Example.hit)) 0 = true /\
    directLight scene Example.hit red = Example.vec 0 0 0 /\
    radianceForRay M Example.ray scene 1 1 i =
      (Some (Example.vec 0 0 0), S (S i)) /\
    radianceForRay M Example.ray scene 1 0 i =
      (Some (Example.vec nan nan nan), i).
Proof. intros M i. vm_compute. repeat split. Qed.

(** C1, as stated, fails: at [depth = 1] and [indirectSamples = 0] the
    radiance is (NaN, NaN, NaN); the red channel is not positive and the
    green and blue channels are not 0. *)
Lemma radianceForRay_scenario_no_samples :
  fst (radianceForRay Example.Math0 Example.ray
         (Example.scene (Example.vec 2 2 (-3))) 1 0 0)
  = Some (Example.vec nan nan nan) /\
  PrimFloat.ltb 0 nan = false /\
  PrimFloat.eqb nan 0 = false.
Proof. vm_compute. repeat split. Qed.

(** ** The nearest hit, in exact arithmetic *)

Section nearest_exact.
Context (div0 : R -> R).
#[local] Hint Extern 0 (Arith R) => exact (Rarith div0) : typeclass_instances.
Import Exact.
Local Open Scope R_scope.

Lemma closestTo_exact (o : vec3.t R) (a b : Contact R) :
  closestTo o a b =
  norm2 (minus (position a) o) - norm2 (minus (position b) o).
Proof. reflexivity. Qed.

Lemma head_sort_nearest (o : vec3.t R) (l : list (Contact R)) (h : Contact R) :
  head (Array_sort (closestTo o) l) = Some h ->
  forall c, In c l ->
    norm2 (minus (position h) o) <= norm2 (minus (position c) o).
Proof.
  revert h. induction l as [|a l IH]; intros h Hh c Hc; [destruct Hc|].
  cbn [Array_sort fold_right] in Hh. fold (Array_sort (closestTo o) l) in Hh.
  destruct (Array_sort (closestTo o) l) as [|b sl] eqn:Hs.
  - apply Array_sort_nil in Hs. subst l. cbn in Hh. injection Hh as <-.
    destruct Hc as [<-|[]]. lra.
  - specialize (IH b eq_refl). cbn [sort_insert] in Hh.
    rewrite closestTo_exact in Hh. exact_arith.
    destruct (Rltb 0 _) eqn:Hlt in Hh; cbn in Hh; injection Hh as <-.
    + apply Rltb_true in Hlt. destruct Hc as [<-|Hc]; [lra|]. auto.
    + apply Rltb_false in Hlt. destruct Hc as [<-|Hc]; [lra|].
      specialize (IH c Hc). lra.
Qed.

(** The hit that is shaded is a contact of the ray, and no contact of the
    ray is nearer to the ray origin. *)
Lemma nearestHit_nearest (ray : Ray R) (scene : Scene R) (hit : Contact R) :
  nearestHit ray scene = Some hit ->
  (exists s, In s (sceneSpheres scene) /\
             intersectRaySphere ray s = Some hit) /\
  forall s c, In s (sceneSpheres scene) -> intersectRaySphere ray s = Some c ->
    norm2 (minus (position hit) (origin ray))
    <= norm2 (minus (position c) (origin ray)).
Proof.
  intros Hh. split.
  - apply In_rayHits. unfold nearestHit in Hh.
    destruct (rayHits ray scene); [discriminate|].
    injection Hh as <-. simpl. auto.
  - intros s c Hs Hc. unfold nearestHit, rayHits in Hh.
    apply (head_sort_nearest _ _ _ Hh). apply in_flat_map.
    exists s. split; [exact Hs|]. rewrite Hc. simpl. auto.
Qed.
End nearest_exact.

(** * Further properties of the code *)

(** ** The ray and the sphere, in exact arithmetic *)

Section geometry_exact.
Context (div0 : R -> R).
#[local] Hint Extern 0 (Arith R) => exact (Rarith div0) : typeclass_instances.
Import Exact Geometry.
Local Open Scope R_scope.

Lemma scaleAndAdd_pointAt (ray : Ray R) (t : R) :
  vec3.scaleAndAdd (origin ray) (direction ray) t = pointAt ray t.
Proof. reflexivity. Qed.

(** What [raySphereT] computes for a ray with a direction. *)
Lemma raySphereT_exact (ray : Ray R) (s : Sphere R) :
  0 < norm2 (direction ray) ->
  let a := norm2 (direction ray) in
  let b := 2 * away ray s in
  let cc := dist2 (origin ray) s - radius s * radius s in
  raySphereT ray s =
  if Rltb (b * b - 4 * a * cc) 0 then None
  else Some ((- b - sqrt (b * b - 4 * a * cc)) / (2 * a)).
Proof.
  intros Ha a b cc. unfold raySphereT.
  rewrite !sqrLen_exact, dot_exact, subtract_exact. exact_arith.
  fold (away ray s) (dist2 (origin ray) s). fold a b cc.
  destruct (Rltb (b * b - 4 * a * cc) 0); [reflexivity|].
  rewrite Rdiv0_nz by (unfold a; lra). reflexivity.
Qed.

(** The squared distance along the ray is the quadratic in [t]. *)
Lemma dist2_pointAt (ray : Ray R) (s : Sphere R) (t : R) :
  dist2 (pointAt ray t) s - radius s * radius s =
  norm2 (direction ray) * (t * t) + 2 * away ray s * t
  + (dist2 (origin ray) s - radius s * radius s).
Proof.
  unfold dist2, pointAt, away. destruct ray as [o d], s as [r c m].
  cbn [origin direction sphere_position radius]. unfold_vec. ring.
Qed.

(** A ray that starts outside a sphere and does not head towards it
    misses it. *)
Lemma intersectRaySphere_outside_away (ray : Ray R) (s : ref (Sphere R)) :
  0 < norm2 (direction ray) ->
  radius (target s) * radius (target s) < dist2 (origin ray) (target s) ->
  0 <= away ray (target s) ->
  intersectRaySphere ray s = None.
Proof.
  intros Ha Hout Haway. rewrite intersectRaySphere_eq.
  rewrite (raySphereT_exact ray (target s) Ha). cbv zeta.
  set (a := norm2 (direction ray)) in *.
  set (b := 2 * away ray (target s)).
  set (cc := dist2 (origin ray) (target s) - radius (target s) * radius (target s)).
  assert (Hb : 0 <= b) by (unfold b; lra).
  assert (Hcc : 0 < cc) by (unfold cc; lra).
  destruct (Rltb (b * b - 4 * a * cc) 0) eqn:HD; [reflexivity|].
  apply Rltb_false in HD. exact_arith.
  pose proof (sqrt_pos (b * b - 4 * a * cc)) as Hs.
  assert (Hb0 : 0 < b) by nra.
  assert (Ht : Rltb ((- b - sqrt (b * b - 4 * a * cc)) / (2 * a)) 0 = true).
  { apply Rltb_true. apply Rmult_lt_reg_r with (2 * a); [lra|].
    unfold Rdiv. rewrite Rmult_assoc, Rinv_l by lra. lra. }
  rewrite Ht. reflexivity.
Qed.

(** A ray that starts strictly inside a sphere gets no contact with it:
    the near root is behind the origin and the far root is not looked
    at. *)
Lemma intersectRaySphere_inside (ray : Ray R) (s : ref (Sphere R)) :
  0 < norm2 (direction ray) ->
  dist2 (origin ray) (target s) < radius (target s) * radius (target s) ->
  intersectRaySphere ray s = None.
Proof.
  intros Ha Hin. rewrite intersectRaySphere_eq.
  rewrite (raySphereT_exact ray (target s) Ha). cbv zeta.
  set (a := norm2 (direction ray)) in *.
  set (b := 2 * away ray (target s)).
  set (cc := dist2 (origin ray) (target s) - radius (target s) * radius (target s)).
  assert (Hcc : cc < 0) by (unfold cc; lra).
  set (D := b * b - 4 * a * cc).
  assert (HD : b * b < D) by (unfold D; nra).
  destruct (Rltb D 0) eqn:E; [reflexivity|]. exact_arith.
  pose proof (sqrt_pos D) as Hs. pose proof (sqrt_sqrt D) as Hss.
  assert (Hgt : - b < sqrt D).
  { destruct (Rle_or_lt (sqrt D) (- b)) as [Hle|]; [|assumption].
    assert (sqrt D * sqrt D <= - b * - b) by nra. nra. }
  assert (Ht : Rltb ((- b - sqrt D) / (2 * a)) 0 = true).
  { apply Rltb_true. apply Rmult_lt_reg_r with (2 * a); [lra|].
    unfold Rdiv. rewrite Rmult_assoc, Rinv_l by lra. lra. }
  rewrite Ht. reflexivity.
Qed.

(** The contact of a ray with a sphere of positive radius: its position
    is on the sphere, at a parameter that is not negative, and its normal
    is the outward unit vector [(position − centre)/radius]. *)
Lemma contact_outward (ray : Ray R) (s : ref (Sphere R)) (c : Contact R) :
  0 < norm2 (direction ray) -> 0 < radius (target s) ->
  intersectRaySphere ray s = Some c ->
  onSphere (position c) (target s) /\
  (exists t, 0 <= t /\ position c = pointAt ray t) /\
  normal c =
    vec3.scale (minus (position c) (sphere_position (target s)))
      (/ radius (target s)) /\
  norm2 (normal c) = 1.
Proof.
  intros Ha Hr Hc.
  pose proof (contact_on_sphere div0 ray s c Ha Hc) as Hon.
  pose proof (contact_normal_unit div0 ray s c Ha Hr Hc) as Hunit.
  apply intersectRaySphere_Some in Hc as (t & Ht & Hneg & ->).
  cbn [position normal contactAt] in *.
  split; [exact Hon|]. split.
  - exists t. split; [|reflexivity]. apply Rltb_false in Hneg. exact Hneg.
  - split; [|exact Hunit].
    rewrite subtract_exact, normalize_scale by (rewrite Hon; nra).
    f_equal. f_equal. unfold length. rewrite Hon.
    apply sqrt_square. lra.
Qed.
End geometry_exact.

Section geometry_properties.
Context (div0 : R -> R).
#[local] Hint Extern 0 (Arith R) => exact (Rarith div0) : typeclass_instances.
Import Exact Geometry.
Local Open Scope R_scope.

(** X1: when a ray with a direction meets a sphere of positive radius,
    the contact position lies on the sphere, at a parameter [t >= 0] of the
    ray, and the normal is the unit vector from the centre through the
    position, [(position − centre)/radius]. *)
Theorem intersectRaySphere_contact_geometry :
  forall (ray : Ray R) (s : ref (Sphere R)),
    direction ray <> vec 0 0 0 -> 0 < radius (target s) ->
    match intersectRaySphere ray s with
    | Some c =>
        onSphere (position c) (target s) /\
        (exists t, 0 <= t /\ position c = pointAt ray t) /\
        normal c =
          vec3.scale (minus (position c) (sphere_position (target s)))
            (/ radius (target s)) /\
        norm2 (normal c) = 1
    | None => True
    end.
Proof.
  intros ray s Hd Hr.
  destruct (intersectRaySphere ray s) as [c|] eqn:Hc; [|exact I].
  apply (contact_outward div0 ray s c); auto. apply norm2_pos. exact Hd.
Qed.

(** X2: when some point [o + t'·d] of the line of a ray lies on the
    sphere, [raySphereT] returns a parameter [t]; the point at [t] lies on
    the sphere, and [t <= t']: it is the first of the points of the line
    that are on the sphere. *)
Theorem raySphereT_first_intersection :
  forall (ray : Ray R) (s : Sphere R) (t' : R),
    direction ray <> vec 0 0 0 -> onSphere (pointAt ray t') s ->
    exists t, raySphereT ray s = Some t /\
              onSphere (pointAt ray t) s /\ t <= t'.
Proof.
  intros ray s t' Hd Hon. pose proof (norm2_pos _ Hd) as Ha.
  destruct (raySphereT ray s) as [t|] eqn:Ht.
  - exists t. split; [reflexivity|]. split.
    + exact (raySphereT_on_sphere div0 ray s t Ha Ht).
    + exact (raySphereT_near_root div0 ray s t t' Ha Ht Hon).
  - exfalso. rewrite (raySphereT_exact div0 ray s Ha) in Ht. cbv zeta in Ht.
    destruct (Rltb _ 0) eqn:HD in Ht; [|discriminate].
    apply Rltb_true in HD.
    pose proof (dist2_pointAt ray s t') as Hq. unfold onSphere in Hon.
    rewrite Hon in Hq.
    set (a := norm2 (direction ray)) in *. set (b := 2 * away ray s) in *.
    set (cc := dist2 (origin ray) s - radius s * radius s) in *.
    assert (Hsq : (2 * a * t' + b) * (2 * a * t' + b) = b * b - 4 * a * cc).
    { replace (b * b - 4 * a * cc)
        with ((2 * a * t' + b) * (2 * a * t' + b)
              - 4 * a * (a * (t' * t') + b * t' + cc)) by ring.
      rewrite <- Hq. ring. }
    pose proof (Rle_0_sqr (2 * a * t' + b)) as Hpos. unfold Rsqr in Hpos.
    lra.
Qed.

(** X3: a ray that starts strictly inside a sphere gets no contact with
    that sphere, whatever its direction: only the near root is computed,
    and it is behind the origin. *)
Theorem intersectRaySphere_from_inside :
  forall (ray : Ray R) (s : ref (Sphere R)),
    direction ray <> vec 0 0 0 ->
    dist2 (origin ray) (target s) < radius (target s) * radius (target s) ->
    intersectRaySphere ray s = None.
Proof.
  intros ray s Hd Hin. apply intersectRaySphere_inside; auto.
  apply norm2_pos. exact Hd.
Qed.

(** X4: a ray that starts strictly outside a sphere and does not head
    towards its centre ([(origin − centre)·direction >= 0]) gets no
    contact with it. *)
Theorem intersectRaySphere_pointing_away :
  forall (ray : Ray R) (s : ref (Sphere R)),
    direction ray <> vec 0 0 0 ->
    radius (target s) * radius (target s) < dist2 (origin ray) (target s) ->
    0 <= away ray (target s) ->
    intersectRaySphere ray s = None.
Proof.
  intros ray s Hd Hout Haway. apply intersectRaySphere_outside_away; auto.
  apply norm2_pos. exact Hd.
Qed.
End geometry_properties.

Lemma ray_direction_nonzero : direction Exact.ray <> Exact.vec 0 0 0.
Proof. intros E. apply (f_equal vec3.z) in E. simpl in E. lra. Qed.

Lemma intersectRaySphere_contact_geometry_witness :
  direction Exact.ray <> Exact.vec 0 0 0 /\
  (0 < radius (target Geometry.ball))%R /\
  match intersectRaySphere (arith := Rarith Exact.anyDiv0)
          Exact.ray Geometry.ball with
  | Some c => Exact.norm2 (normal c) = 1%R
  | None => True
  end.
Proof.
  assert (Hr : (0 < radius (target Geometry.ball))%R) by (simpl; lra).
  split; [exact ray_direction_nonzero|]. split; [exact Hr|].
  pose proof (intersectRaySphere_contact_geometry Exact.anyDiv0 Exact.ray
                Geometry.ball ray_direction_nonzero Hr) as H.
  destruct (intersectRaySphere Exact.ray Geometry.ball); [apply H|exact I].
Defined.

Lemma raySphereT_first_intersection_witness :
  direction Exact.ray <> Exact.vec 0 0 0 /\
  Geometry.onSphere (Geometry.pointAt Exact.ray 4) Exact.greySphere /\
  exists t, raySphereT (arith := Rarith Exact.anyDiv0)
              Exact.ray Exact.greySphere = Some t /\ (t <= 4)%R.
Proof.
  assert (Hon : Geometry.onSphere (Geometry.pointAt Exact.ray 4)
                  Exact.greySphere).
  { unfold Geometry.onSphere, Geometry.dist2, Geometry.pointAt. simpl.
    unfold_vec. ring. }
  split; [exact ray_direction_nonzero|]. split; [exact Hon|].
  destruct (raySphereT_first_intersection Exact.anyDiv0 Exact.ray
              Exact.greySphere 4 ray_direction_nonzero Hon)
    as (t & Ht & _ & Hle).
  exists t. split; assumption.
Defined.

Lemma intersectRaySphere_from_inside_witness :
  direction Geometry.inner <> Exact.vec 0 0 0 /\
  (Geometry.dist2 (origin Geometry.inner) (target Geometry.ball)
   < radius (target Geometry.ball) * radius (target Geometry.ball))%R /\
  intersectRaySphere (arith := Rarith Exact.anyDiv0)
    Geometry.inner Geometry.ball = None.
Proof.
  assert (Hd : direction Geometry.inner <> Exact.vec 0 0 0).
  { intros E. apply (f_equal vec3.z) in E. simpl in E. lra. }
  assert (Hin : (Geometry.dist2 (origin Geometry.inner) (target Geometry.ball)
     < radius (target Geometry.ball) * radius (target Geometry.ball))%R).
  { unfold Geometry.dist2. simpl. unfold_vec. lra. }
  split; [exact Hd|]. split; [exact Hin|].
  exact (intersectRaySphere_from_inside Exact.anyDiv0 Geometry.inner
           Geometry.ball Hd Hin).
Defined.

Lemma intersectRaySphere_pointing_away_witness :
  direction Geometry.backward <> Exact.vec 0 0 0 /\
  (radius (target Geometry.ball) * radius (target Geometry.ball)
   < Geometry.dist2 (origin Geometry.backward) (target Geometry.ball))%R /\
  (0 <= Geometry.away Geometry.backward (target Geometry.ball))%R /\
  intersectRaySphere (arith := Rarith Exact.anyDiv0)
    Geometry.backward Geometry.ball = None.
Proof.
  assert (Hd : direction Geometry.backward <> Exact.vec 0 0 0).
  { intros E. apply (f_equal vec3.z) in E. simpl in E. lra. }
  assert (Hout : (radius (target Geometry.ball) * radius (target Geometry.ball)
     < Geometry.dist2 (origin Geometry.backward) (target Geometry.ball))%R).
  { unfold Geometry.dist2. simpl. unfold_vec. lra. }
  assert (Haway : (0 <= Geometry.away Geometry.backward
                          (target Geometry.ball))%R).
  { unfold Geometry.away. simpl. unfold_vec. lra. }
  split; [exact Hd|]. split; [exact Hout|]. split; [exact Haway|].
  exact (intersectRaySphere_pointing_away Exact.anyDiv0 Geometry.backward
           Geometry.ball Hd Hout Haway).
Defined.

(** ** The bounce and the sample, in exact arithmetic *)

Section bounce_exact.
Context (div0 : R -> R).
#[local] Hint Extern 0 (Arith R) => exact (Rarith div0) : typeclass_instances.
Import Exact Geometry.
Local Open Scope R_scope.

(** The origin of the bounce is [1/1000] further from the centre than the
    contact, and the bounce does not head back. *)
Lemma indirectRay_outside (ray : Ray R) (s : ref (Sphere R)) (hit : Contact R)
  (dir : vec3.t R) :
  0 < norm2 (direction ray) -> 0 < radius (target s) ->
  intersectRaySphere ray s = Some hit ->
  0 <= dot dir (normal hit) ->
  dist2 (origin (indirectRay hit dir)) (target s)
  = (radius (target s) + 1 / 1000) * (radius (target s) + 1 / 1000) /\
  0 <= away (indirectRay hit dir) (target s).
Proof.
  intros Ha Hr Hc Hdot.
  destruct (contact_outward div0 ray s hit Ha Hr Hc) as (Hon & _ & Hn & Hunit).
  unfold indirectRay, dist2, away. cbn [origin direction]. exact_arith.
  rewrite Rdiv0_nz by lra.
  set (r := radius (target s)) in *.
  destruct (position hit) as [p1 p2 p3], (sphere_position (target s)) as [c1 c2 c3],
    (normal hit) as [n1 n2 n3], dir as [d1 d2 d3].
  unfold_vec. injection Hn as H1 H2 H3.
  assert (E1 : p1 - c1 = r * n1) by (rewrite H1; field; lra).
  assert (E2 : p2 - c2 = r * n2) by (rewrite H2; field; lra).
  assert (E3 : p3 - c3 = r * n3) by (rewrite H3; field; lra).
  split.
  - replace (p1 + n1 * (1 / 1000) - c1) with ((r + 1 / 1000) * n1) by lra.
    replace (p2 + n2 * (1 / 1000) - c2) with ((r + 1 / 1000) * n2) by lra.
    replace (p3 + n3 * (1 / 1000) - c3) with ((r + 1 / 1000) * n3) by lra.
    transitivity ((r + 1 / 1000) * (r + 1 / 1000)
                  * (n1 * n1 + n2 * n2 + n3 * n3)); [ring|].
    rewrite Hunit. ring.
  - replace (p1 + n1 * (1 / 1000) - c1) with ((r + 1 / 1000) * n1) by lra.
    replace (p2 + n2 * (1 / 1000) - c2) with ((r + 1 / 1000) * n2) by lra.
    replace (p3 + n3 * (1 / 1000) - c3) with ((r + 1 / 1000) * n3) by lra.
    replace ((r + 1 / 1000) * n1 * d1 + (r + 1 / 1000) * n2 * d2
             + (r + 1 / 1000) * n3 * d3)
      with ((r + 1 / 1000) * (d1 * n1 + d2 * n2 + d3 * n3)) by ring.
    apply Rmult_le_pos; lra.
Qed.

Lemma malley_z (u1 u2 : R) :
  0 <= u1 <= 1 -> vec3.z (malley u1 u2) = sqrt (1 - u1).
Proof.
  intros Hu. unfold malley. cbv zeta. cbn [vec3.z vec].
  set (x := sqrt u1 * cos (2 * PI * u2)).
  set (y := sqrt u1 * sin (2 * PI * u2)).
  assert (Hxy : x² + y² = u1).
  { unfold x, y, Rsqr.
    pose proof (sin2_cos2 (2 * PI * u2)) as H. unfold Rsqr in H.
    pose proof (sqrt_sqrt u1 (proj1 Hu)) as Hs.
    transitivity (sqrt u1 * sqrt u1 *
                  (sin (2 * PI * u2) * sin (2 * PI * u2)
                   + cos (2 * PI * u2) * cos (2 * PI * u2))); [ring|].
    rewrite H, Hs. ring. }
  rewrite Rmax_right by lra. f_equal. lra.
Qed.

(** [x × (n × x) = n] for a unit [x] orthogonal to [n]. *)
Lemma cross_cross (n x : vec3.t R) :
  norm2 x = 1 -> dot x n = 0 -> cross x (cross n x) = n.
Proof.
  destruct n as [n1 n2 n3], x as [x1 x2 x3]. unfold_vec. intros Hx Hxn.
  f_equal.
  - transitivity (n1 * (x1 * x1 + x2 * x2 + x3 * x3)
                  - x1 * (x1 * n1 + x2 * n2 + x3 * n3)); [ring|].
    rewrite Hx, Hxn. ring.
  - transitivity (n2 * (x1 * x1 + x2 * x2 + x3 * x3)
                  - x2 * (x1 * n1 + x2 * n2 + x3 * n3)); [ring|].
    rewrite Hx, Hxn. ring.
  - transitivity (n3 * (x1 * x1 + x2 * x2 + x3 * x3)
                  - x3 * (x1 * n1 + x2 * n2 + x3 * n3)); [ring|].
    rewrite Hx, Hxn. ring.
Qed.

(** X5: the ray that [radianceForRay] bounces off a contact never meets
    the sphere it leaves: its origin is pushed 0.001 along the outward
    normal and its direction is sampled in the hemisphere of the
    normal. *)
Theorem indirectRay_leaves_sphere :
  forall (u : nat -> R) (i : nat) (ray : Ray R) (s : ref (Sphere R)),
    direction ray <> vec 0 0 0 -> 0 < radius (target s) ->
    0 <= u i < 1 ->
    match intersectRaySphere ray s with
    | Some hit =>
        intersectRaySphere
          (indirectRay hit
             (fst (cosineWeightedHemisphereSample (RMath u) (normal hit) i)))
          s = None
    | None => True
    end.
Proof.
  intros u i ray s Hd Hr Hu. pose proof (norm2_pos _ Hd) as Ha.
  destruct (intersectRaySphere ray s) as [hit|] eqn:Hc; [|exact I].
  pose proof (contact_normal_unit div0 ray s hit Ha Hr Hc) as Hunit.
  destruct (sample_unit div0 u i (normal hit) Hunit) as [Hlen Hdot]; [lra|].
  set (dir := fst (cosineWeightedHemisphereSample (RMath u) (normal hit) i))
    in *.
  destruct (indirectRay_outside ray s hit dir Ha Hr Hc Hdot) as [Hdist Haway].
  apply intersectRaySphere_outside_away.
  - cbn [direction indirectRay]. rewrite Hlen. lra.
  - rewrite Hdist. nra.
  - exact Haway.
Qed.

(** X6: for a unit normal, the cosine between the sample and the normal
    is [√(1 − U₁)], where [U₁] is the first of the two draws. *)
Theorem cosineWeightedHemisphereSample_cosine :
  forall (u : nat -> R) (i : nat) (n : vec3.t R),
    norm2 n = 1 -> 0 <= u i < 1 ->
    dot (fst (cosineWeightedHemisphereSample (RMath u) n i)) n
    = sqrt (1 - u i).
Proof.
  intros u i n Hn Hu. rewrite cosineWeightedHemisphereSample_eq. cbn [fst].
  pose proof (arbitraryBasis_orthonormal div0 n Hn) as Horth.
  destruct (arbitraryBasis_columns div0 n) as (_ & _ & E2).
  rewrite <- E2 at 4. rewrite dot_combination by assumption.
  apply malley_z. lra.
Qed.

(** X7: around a unit vector [z], the basis of [arbitraryBasis] is
    right-handed: its first column cross its second is its third, [z]. *)
Theorem arbitraryBasis_right_handed :
  forall z : vec3.t R,
    norm2 z = 1 ->
    cross (column0 (arbitraryBasis z)) (column1 (arbitraryBasis z))
    = column2 (arbitraryBasis z) /\
    column2 (arbitraryBasis z) = z.
Proof.
  intros z Hz. destruct (arbitraryBasis_columns div0 z) as (E0 & E1 & E2).
  destruct (arbitraryBasis_orthonormal div0 z Hz) as (Hx & _ & _ & _ & Hxz & _).
  rewrite E2 in Hxz. split; [|exact E2].
  rewrite E1, E2. apply cross_cross; assumption.
Qed.
End bounce_exact.

Lemma indirectRay_leaves_sphere_witness :
  direction Exact.ray <> Exact.vec 0 0 0 /\
  (0 < radius (target Geometry.ball))%R /\ (0 <= 1 / 4 < 1)%R /\
  match intersectRaySphere (arith := Rarith Exact.anyDiv0)
          Exact.ray Geometry.ball with
  | Some hit =>
      intersectRaySphere (arith := Rarith Exact.anyDiv0)
        (indirectRay (arith := Rarith Exact.anyDiv0) hit
           (fst (cosineWeightedHemisphereSample (arith := Rarith Exact.anyDiv0)
                   (RMath (fun _ => (1 / 4)%R)) (normal hit) 0)))
        Geometry.ball = None
  | None => True
  end.
Proof.
  assert (Hr : (0 < radius (target Geometry.ball))%R) by (simpl; lra).
  assert (Hu : (0 <= 1 / 4 < 1)%R) by lra.
  split; [exact ray_direction_nonzero|]. split; [exact Hr|].
  split; [exact Hu|].
  exact (indirectRay_leaves_sphere Exact.anyDiv0 (fun _ => (1 / 4)%R) 0%nat
           Exact.ray Geometry.ball ray_direction_nonzero Hr Hu).
Defined.

Lemma unit_z : Exact.norm2 (Exact.vec 0 0 1) = 1%R.
Proof. unfold_vec. ring. Qed.

Lemma cosineWeightedHemisphereSample_cosine_witness :
  Exact.norm2 (Exact.vec 0 0 1) = 1%R /\ (0 <= 1 / 4 < 1)%R /\
  Exact.dot
    (fst (cosineWeightedHemisphereSample (arith := Rarith Exact.anyDiv0)
            (RMath (fun _ => (1 / 4)%R)) (Exact.vec 0 0 1) 0))
    (Exact.vec 0 0 1)
  = sqrt (1 - 1 / 4).
Proof.
  assert (Hu : (0 <= 1 / 4 < 1)%R) by lra.
  split; [exact unit_z|]. split; [exact Hu|].
  exact (cosineWeightedHemisphereSample_cosine Exact.anyDiv0
           (fun _ => (1 / 4)%R) 0%nat (Exact.vec 0 0 1) unit_z Hu).
Defined.

Lemma arbitraryBasis_right_handed_witness :
  Exact.norm2 (Exact.vec 0 0 1) = 1%R /\
  Exact.column2 (arbitraryBasis (arith := Rarith Exact.anyDiv0)
                   (Exact.vec 0 0 1)) = Exact.vec 0 0 1.
Proof.
  split; [exact unit_z|].
  apply (arbitraryBasis_right_handed Exact.anyDiv0 (Exact.vec 0 0 1) unit_z).
Defined.

(** ** The sorted contacts *)

Section sort_facts.
Context {num : Type} {arith : Arith num}.
Local Open Scope js_scope.

Lemma sort_insert_Permutation {A} (cmp : A -> A -> num) a l :
  Permutation (sort_insert cmp a l) (a :: l).
Proof.
  induction l as [|b l IH]; simpl; [reflexivity|].
  destruct (_ <? _); [|reflexivity].
  rewrite IH. apply perm_swap.
Qed.

Lemma Array_sort_Permutation {A} (cmp : A -> A -> num) l :
  Permutation (Array_sort cmp l) l.
Proof.
  induction l as [|a l IH]; simpl; [reflexivity|].
  rewrite sort_insert_Permutation. apply perm_skip. exact IH.
Qed.

Lemma rayHits_sceneContacts (ray : Ray num) (scene : Scene num) :
  rayHits ray scene = Array_sort (closestTo (origin ray)) (sceneContacts ray scene).
Proof. reflexivity. Qed.
End sort_facts.

Section sort_exact.
Context (div0 : R -> R).
#[local] Hint Extern 0 (Arith R) => exact (Rarith div0) : typeclass_instances.
Import Exact Geometry.
Local Open Scope R_scope.

Lemma sort_insert_sorted (o : vec3.t R) (a : Contact R) (l : list (Contact R)) :
  StronglySorted (fun a b => distanceFrom o a <= distanceFrom o b) l ->
  StronglySorted (fun a b => distanceFrom o a <= distanceFrom o b)
    (sort_insert (closestTo o) a l).
Proof.
  induction 1 as [|b l Hl IH Hb]; cbn [sort_insert].
  - repeat constructor.
  - rewrite (closestTo_exact div0). exact_arith.
    fold (distanceFrom o a) (distanceFrom o b).
    destruct (Rltb 0 (distanceFrom o a - distanceFrom o b)) eqn:E.
    + apply Rltb_true in E. constructor; [exact IH|].
      apply List.Forall_forall. intros c Hc. apply sort_insert_In in Hc as [->|Hc].
      * lra.
      * rewrite List.Forall_forall in Hb. auto.
    + apply Rltb_false in E. constructor.
      * constructor; assumption.
      * constructor; [lra|]. rewrite List.Forall_forall in Hb |- *.
        intros c Hc. specialize (Hb c Hc). lra.
Qed.

Lemma Array_sort_sorted (o : vec3.t R) (l : list (Contact R)) :
  StronglySorted (fun a b => distanceFrom o a <= distanceFrom o b)
    (Array_sort (closestTo o) l).
Proof.
  induction l as [|a l IH]; simpl; [constructor|].
  apply sort_insert_sorted. exact IH.
Qed.
End sort_exact.

(** X8: the contacts that [radianceForRay] sorts are kept: in every
    arithmetic [rayHits] is a rearrangement of the contacts of the ray with
    the spheres of the scene, one for every sphere that is hit; and in
    exact arithmetic it is in ascending order of the squared distance
    from the ray origin, every contact before all the ones that are not
    nearer. *)
Theorem rayHits_sorted_permutation :
  (forall (num : Type) (A : Arith num) (ray : Ray num) (scene : Scene num),
     Permutation (rayHits ray scene) (sceneContacts ray scene)) /\
  (forall (div0 : R -> R) (ray : Ray R) (scene : Scene R),
     StronglySorted
       (fun a b => (Geometry.distanceFrom (origin ray) a
                    <= Geometry.distanceFrom (origin ray) b)%R)
       (rayHits (arith := Rarith div0) ray scene)).
Proof.
  split.
  - intros num A ray scene. rewrite rayHits_sceneContacts.
    apply Array_sort_Permutation.
  - intros div0 ray scene. apply Array_sort_sorted.
Qed.

(** ** Point lights, in exact arithmetic *)

Section pointLight_exact.
Context (div0 : R -> R).
#[local] Hint Extern 0 (Arith R) => exact (Rarith div0) : typeclass_instances.
Import Exact Geometry.
Local Open Scope R_scope.

Lemma dot_unitVector (v n : vec3.t R) :
  0 < norm2 v -> dot (unitVector v) n = dot v n / length v.
Proof.
  intros Hv. pose proof (length_pos v Hv) as Hl.
  unfold unitVector. unfold_vec. field. lra.
Qed.

Lemma pointLightChannel_back (a : R) (light : Light R) (contact : Contact R) :
  light_position light <> position contact ->
  dot (minus (light_position light) (position contact)) (normal contact) <= 0 ->
  pointLightChannel a light contact = 0.
Proof.
  intros Hne Hdot. unfold pointLightChannel.
  set (toLight := minus (light_position light) (position contact)) in *.
  assert (Hpos : 0 < norm2 toLight).
  { apply norm2_pos. intros E. apply Hne, minus_zero. exact E. }
  pose proof (length_pos toLight Hpos) as Hl.
  rewrite dot_unitVector by assumption.
  rewrite Rmax_right; [ring|].
  apply Rmult_le_reg_r with (length toLight); [lra|].
  unfold Rdiv. rewrite Rmult_assoc, Rinv_l by lra. lra.
Qed.

Lemma norm2_moved (light : Light R) (contact : Contact R) (k : R) :
  minus (light_position (moved light contact k)) (position contact)
  = vec3.scale (minus (light_position light) (position contact)) k.
Proof.
  unfold moved. cbn [light_position]. unfold_vec. f_equal; ring.
Qed.

Lemma length_scale (v : vec3.t R) (k : R) :
  0 < k -> length (vec3.scale v k) = k * length v.
Proof.
  intros Hk. unfold length. rewrite norm2_scale.
  rewrite sqrt_mult by (try apply norm2_nonneg; nra).
  rewrite sqrt_square by lra. reflexivity.
Qed.

Lemma pointLightChannel_moved (a : R) (light : Light R) (contact : Contact R)
  (k : R) :
  0 < k -> light_position light <> position contact ->
  pointLightChannel a (moved light contact k) contact
  = pointLightChannel a light contact / (k * k).
Proof.
  intros Hk Hne. unfold pointLightChannel. rewrite norm2_moved.
  set (v := minus (light_position light) (position contact)) in *.
  assert (Hpos : 0 < norm2 v).
  { apply norm2_pos. intros E. apply Hne, minus_zero. exact E. }
  pose proof (length_pos v Hpos) as Hl.
  assert (Hpos' : 0 < norm2 (vec3.scale v k)).
  { rewrite norm2_scale. apply Rmult_lt_0_compat; [nra|lra]. }
  rewrite !dot_unitVector by assumption.
  rewrite length_scale by assumption. rewrite dot_scale_l.
  replace (k * dot v (normal contact) / (k * length v))
    with (dot v (normal contact) / length v) by (field; lra).
  cbn [radiantPower moved]. unfold Rsqr. pose proof PI_RGT_0.
  field. repeat split; lra.
Qed.

(** X9: a light that is on or behind the tangent plane of the contact
    ([(light.position − contact.position)·normal <= 0]) and not at the
    contact itself contributes exactly (0,0,0): the Lambert term is
    clamped. *)
Theorem evaluatePointLight_back_facing :
  forall (light : Light R) (contact : Contact R) (material : Material R),
    light_position light <> position contact ->
    dot (minus (light_position light) (position contact)) (normal contact)
    <= 0 ->
    evaluatePointLight light contact material = vec 0 0 0.
Proof.
  intros light contact material Hne Hdot.
  rewrite (evaluatePointLight_channels div0 light contact material Hne).
  rewrite !pointLightChannel_back by assumption. reflexivity.
Qed.

(** X10: the inverse-square law.  Moving a light along the line from the
    contact through it, to [k] times its distance ([k > 0]), divides the
    radiance of every channel by [k²]. *)
Theorem evaluatePointLight_inverse_square :
  forall (light : Light R) (contact : Contact R) (material : Material R)
         (k : R),
    0 < k -> light_position light <> position contact ->
    evaluatePointLight (moved light contact k) contact material
    = vec3.scale (evaluatePointLight light contact material) (/ (k * k)).
Proof.
  intros light contact material k Hk Hne.
  assert (Hne' : light_position (moved light contact k) <> position contact).
  { intros E. apply Hne. apply minus_zero.
    assert (Ez : minus (light_position (moved light contact k))
                   (position contact) = vec 0 0 0).
    { rewrite E. unfold_vec. f_equal; ring. }
    rewrite norm2_moved in Ez.
    destruct (minus (light_position light) (position contact)) as [a b c].
    unfold_vec. injection Ez as E1 E2 E3.
    f_equal; nra. }
  rewrite (evaluatePointLight_channels div0 _ contact material Hne').
  rewrite (evaluatePointLight_channels div0 light contact material Hne).
  rewrite !pointLightChannel_moved by assumption.
  unfold vec3.scale, vec. cbn [vec3.x vec3.y vec3.z]. exact_arith.
  reflexivity.
Qed.
End pointLight_exact.

Lemma lamp_not_at_hit : light_position Exact.lamp <> position Exact.hit.
Proof. intros E. apply (f_equal vec3.x) in E. simpl in E. lra. Qed.

Lemma evaluatePointLight_back_facing_witness :
  light_position (Geometry.moved Exact.lamp Exact.hit (-1))
    <> position Exact.hit /\
  (Exact.dot (Exact.minus
                (light_position (Geometry.moved Exact.lamp Exact.hit (-1)))
                (position Exact.hit)) (normal Exact.hit) <= 0)%R /\
  evaluatePointLight (arith := Rarith Exact.anyDiv0)
    (Geometry.moved Exact.lamp Exact.hit (-1)) Exact.hit
    {| albedo := Exact.vec 1 0 0 |} = Exact.vec 0 0 0.
Proof.
  assert (Hne : light_position (Geometry.moved Exact.lamp Exact.hit (-1))
                <> position Exact.hit).
  { intros E. apply (f_equal vec3.x) in E. simpl in E. lra. }
  assert (Hdot : (Exact.dot (Exact.minus
                (light_position (Geometry.moved Exact.lamp Exact.hit (-1)))
                (position Exact.hit)) (normal Exact.hit) <= 0)%R).
  { simpl. unfold_vec. lra. }
  split; [exact Hne|]. split; [exact Hdot|].
  exact (evaluatePointLight_back_facing Exact.anyDiv0 _ Exact.hit
           {| albedo := Exact.vec 1 0 0 |} Hne Hdot).
Defined.

Lemma evaluatePointLight_inverse_square_witness :
  (0 < 2)%R /\ light_position Exact.lamp <> position Exact.hit /\
  evaluatePointLight (arith := Rarith Exact.anyDiv0)
    (Geometry.moved Exact.lamp Exact.hit 2) Exact.hit
    {| albedo := Exact.vec 1 0 0 |}
  = vec3.scale (arith := Rarith Exact.anyDiv0)
      (evaluatePointLight (arith := Rarith Exact.anyDiv0)
         Exact.lamp Exact.hit {| albedo := Exact.vec 1 0 0 |})
      (/ (2 * 2))%R.
Proof.
  assert (Hk : (0 < 2)%R) by lra.
  split; [exact Hk|]. split; [exact lamp_not_at_hit|].
  exact (evaluatePointLight_inverse_square Exact.anyDiv0 Exact.lamp Exact.hit
           {| albedo := Exact.vec 1 0 0 |} 2 Hk lamp_not_at_hit).
Defined.

(** ** The viewport, in exact arithmetic *)

Section viewport_exact.
Context (div0 : R -> R).
#[local] Hint Extern 0 (Arith R) => exact (Rarith div0) : typeclass_instances.
Import Exact.
Local Open Scope R_scope.

Lemma rayForPixel_direction (vp : Viewport R) (x y : R) :
  width (dims vp) <> 0 -> height (dims vp) <> 0 ->
  direction (rayForPixel vp x y) =
  vec (((2 * x + 1) / width (dims vp) - 1) * (imagePlaneWidth vp / 2))
      ((1 - (2 * y + 1) / height (dims vp)) * (imagePlaneHeight vp / 2))
      (-1).
Proof.
  intros Hw Hh. unfold rayForPixel. cbn [direction]. exact_arith.
  rewrite !Rdiv0_nz by lra. reflexivity.
Qed.

Lemma Viewport_new_plane (M : MathEnv R) (size : Dimensions R)
  (camera : Camera R) :
  height size <> 0 ->
  imagePlaneWidth (Viewport_new M size camera)
  = imagePlaneHeight (Viewport_new M size camera) * (width size / height size)
  /\ imagePlaneHeight (Viewport_new M size camera)
     = 2 * Math_tan M (fovY camera / 2).
Proof.
  intros Hh. unfold Viewport_new.
  cbn [imagePlaneWidth imagePlaneHeight]. exact_arith.
  rewrite !Rdiv0_nz by lra. split; reflexivity.
Qed.

(** X11: the viewport is symmetric about the view axis: the ray of the
    pixel [(width − 1 − x, height − 1 − y)] is the ray of [(x, y)] with the
    x and y components of its direction negated. *)
Theorem rayForPixel_mirror :
  forall (M : MathEnv R) (size : Dimensions R) (camera : Camera R) (x y : R),
    width size <> 0 -> height size <> 0 ->
    let vp := Viewport_new M size camera in
    direction (rayForPixel vp (width size - 1 - x) (height size - 1 - y))
    = vec (- vec3.x (direction (rayForPixel vp x y)))
          (- vec3.y (direction (rayForPixel vp x y)))
          (-1).
Proof.
  intros M size camera x y Hw Hh vp.
  rewrite !rayForPixel_direction by assumption.
  cbn [vec3.x vec3.y vec]. unfold vec. cbn [Exact.vec].
  change (dims vp) with size.
  f_equal; field; assumption.
Qed.

(** X12: the rays of the pixels of the image pass through the image
    plane, half a pixel or more inside its edges: for [0 <= x <= width − 1]
    and [0 <= y <= height − 1] the x and y components of the direction are
    at most [(1 − 1/width)] and [(1 − 1/height)] of half the plane's width
    and height. *)
Theorem rayForPixel_inside_plane :
  forall (M : MathEnv R) (size : Dimensions R) (camera : Camera R) (x y : R),
    0 < width size -> 0 < height size ->
    0 <= x <= width size - 1 -> 0 <= y <= height size - 1 ->
    let vp := Viewport_new M size camera in
    Rabs (vec3.x (direction (rayForPixel vp x y)))
    <= (1 - 1 / width size) * Rabs (imagePlaneWidth vp / 2) /\
    Rabs (vec3.y (direction (rayForPixel vp x y)))
    <= (1 - 1 / height size) * Rabs (imagePlaneHeight vp / 2).
Proof.
  intros M size camera x y Hw Hh Hx Hy vp.
  rewrite rayForPixel_direction by (change (dims vp) with size; lra).
  change (dims vp) with size. cbn [vec3.x vec3.y vec].
  rewrite !Rabs_mult.
  assert (Hiw : 0 < / width size) by (apply Rinv_0_lt_compat; lra).
  assert (Hih : 0 < / height size) by (apply Rinv_0_lt_compat; lra).
  split; apply Rmult_le_compat_r; try apply Rabs_pos; apply Rabs_le.
  - assert (E : (2 * x + 1) / width size - 1
                = (2 * x + 1 - width size) * / width size) by (field; lra).
    assert (E' : 1 - 1 / width size = (width size - 1) * / width size)
      by (field; lra).
    rewrite E, E'. split.
    + replace (- ((width size - 1) * / width size))
        with ((1 - width size) * / width size) by ring.
      apply Rmult_le_compat_r; lra.
    + apply Rmult_le_compat_r; lra.
  - assert (E : 1 - (2 * y + 1) / height size
                = (height size - 2 * y - 1) * / height size) by (field; lra).
    assert (E' : 1 - 1 / height size = (height size - 1) * / height size)
      by (field; lra).
    rewrite E, E'. split.
    + replace (- ((height size - 1) * / height size))
        with ((1 - height size) * / height size) by ring.
      apply Rmult_le_compat_r; lra.
    + apply Rmult_le_compat_r; lra.
Qed.

(** X13: the pixels form a regular grid of square cells on the image
    plane, with row 0 at the top: one column to the right adds
    [imagePlaneWidth/width] to the x component of the direction, one row
    down subtracts [imagePlaneHeight/height] from the y component, and the
    two steps are equal. *)
Theorem rayForPixel_grid :
  forall (M : MathEnv R) (size : Dimensions R) (camera : Camera R) (x y : R),
    width size <> 0 -> height size <> 0 ->
    let vp := Viewport_new M size camera in
    vec3.x (direction (rayForPixel vp (x + 1) y))
    - vec3.x (direction (rayForPixel vp x y))
    = imagePlaneWidth vp / width size /\
    vec3.y (direction (rayForPixel vp x (y + 1)))
    - vec3.y (direction (rayForPixel vp x y))
    = - (imagePlaneHeight vp / height size) /\
    imagePlaneWidth vp / width size = imagePlaneHeight vp / height size.
Proof.
  intros M size camera x y Hw Hh vp.
  rewrite !rayForPixel_direction by assumption.
  change (dims vp) with size. cbn [vec3.x vec3.y vec].
  destruct (Viewport_new_plane M size camera Hh) as [Ew _]. fold vp in Ew.
  repeat split; try (field; assumption).
  rewrite Ew. field. split; assumption.
Qed.
End viewport_exact.

Lemma rayForPixel_mirror_witness :
  width Screen.dims <> 0%R /\ height Screen.dims <> 0%R /\
  vec3.z (direction
            (rayForPixel (arith := Rarith Exact.anyDiv0)
               (Viewport_new (arith := Rarith Exact.anyDiv0)
                  Screen.Math Screen.dims Screen.camera)
               (width Screen.dims - 1 - 0)%R (height Screen.dims - 1 - 0)%R))
  = (-1)%R.
Proof.
  assert (Hw : width Screen.dims <> 0%R) by (simpl; lra).
  assert (Hh : height Screen.dims <> 0%R) by (simpl; lra).
  split; [exact Hw|]. split; [exact Hh|].
  rewrite (rayForPixel_mirror Exact.anyDiv0 Screen.Math Screen.dims
             Screen.camera 0 0 Hw Hh).
  reflexivity.
Defined.

Lemma rayForPixel_inside_plane_witness :
  (0 < width Screen.dims)%R /\ (0 < height Screen.dims)%R /\
  (0 <= 3 <= width Screen.dims - 1)%R /\ (0 <= 1 <= height Screen.dims - 1)%R /\
  (Rabs (vec3.x (direction
            (rayForPixel (arith := Rarith Exact.anyDiv0)
               (Viewport_new (arith := Rarith Exact.anyDiv0)
                  Screen.Math Screen.dims Screen.camera) 3 1)))
   <= (1 - 1 / width Screen.dims)
      * Rabs (imagePlaneWidth
                (Viewport_new (arith := Rarith Exact.anyDiv0)
                   Screen.Math Screen.dims Screen.camera) / 2))%R.
Proof.
  assert (Hw : (0 < width Screen.dims)%R) by (simpl; lra).
  assert (Hh : (0 < height Screen.dims)%R) by (simpl; lra).
  assert (Hx : (0 <= 3 <= width Screen.dims - 1)%R) by (simpl; lra).
  assert (Hy : (0 <= 1 <= height Screen.dims - 1)%R) by (simpl; lra).
  repeat (split; [assumption|]).
  apply (rayForPixel_inside_plane Exact.anyDiv0 Screen.Math Screen.dims
           Screen.camera 3 1 Hw Hh Hx Hy).
Defined.

Lemma rayForPixel_grid_witness :
  width Screen.dims <> 0%R /\ height Screen.dims <> 0%R /\
  (imagePlaneWidth (Viewport_new (arith := Rarith Exact.anyDiv0)
                      Screen.Math Screen.dims Screen.camera)
   / width Screen.dims
   = imagePlaneHeight (Viewport_new (arith := Rarith Exact.anyDiv0)
                         Screen.Math Screen.dims Screen.camera)
     / height Screen.dims)%R.
Proof.
  assert (Hw : width Screen.dims <> 0%R) by (simpl; lra).
  assert (Hh : height Screen.dims <> 0%R) by (simpl; lra).
  split; [exact Hw|]. split; [exact Hh|].
  apply (rayForPixel_grid Exact.anyDiv0 Screen.Math Screen.dims
           Screen.camera 0 0 Hw Hh).
Defined.

(** ** The tracer: draws, depth and lights *)

Section trace_structure.
Context {num : Type} {arith : Arith num}.
Local Open Scope js_scope.

(** [radianceForRay] at a positive depth, with its parts named. *)
Lemma radianceAtDepth_S (M : MathEnv num) (scene : Scene num) (n : Z)
  (depth : nat) (ray : Ray num) :
  radianceAtDepth M scene n (S depth) ray =
  match nearestHit ray scene with
  | None => ret None
  | Some hit =>
      match materials scene !! material (target (geometry hit)) with
      | None => ret None
      | Some m =>
          let* indirectLight :=
            forLoop (Z.to_nat n)
              (fun indirectLight =>
                 let* indirectDir :=
                   cosineWeightedHemisphereSample M (normal hit) in
                 let* incomingRadiance :=
                   radianceAtDepth M scene n depth
                     (indirectRay hit indirectDir) in
                 match incomingRadiance with
                 | Some incoming =>
                     ret (vec3.add indirectLight
                            (vec3.multiply (albedo m) incoming))
                 | None => ret indirectLight
                 end)
              vec3.create in
          ret (Some (vec3.add (directLight scene hit m)
                       (vec3.scale indirectLight (#1 / ofZ n))))
      end
  end.
Proof.
  unfold nearestHit. cbn [radianceAtDepth].
  destruct (rayHits ray scene); reflexivity.
Qed.

Lemma sample_draws (M : MathEnv num) (n : vec3.t num) (i : nat) :
  snd (cosineWeightedHemisphereSample M n i) = S (S i).
Proof. reflexivity. Qed.

Lemma forLoop_draws {S} (body : S -> Rand S) (k : nat) :
  (forall acc i, (i <= snd (body acc i) <= i + k)%nat) ->
  forall n acc i, (i <= snd (forLoop n body acc i) <= i + n * k)%nat.
Proof.
  intros Hbody. induction n as [|n IH]; intros acc i; simpl; [lia|].
  unfold bind. specialize (Hbody acc i).
  destruct (body acc i) as [acc' j]. cbn [snd] in Hbody.
  specialize (IH acc' j). lia.
Qed.

Lemma snd_bind_ret {S B} (c : Rand S) (f : S -> B) (i : nat) :
  snd ((let* a := c in ret (f a)) i) = snd (c i).
Proof. unfold bind, ret. destruct (c i). reflexivity. Qed.

Lemma fst_bind_ret {S B} (c : Rand S) (f : S -> B) (i : nat) :
  fst ((let* a := c in ret (f a)) i) = f (fst (c i)).
Proof. unfold bind, ret. destruct (c i). reflexivity. Qed.

Lemma radianceAtDepth_draws (M : MathEnv num) (scene : Scene num) (n : Z) :
  forall (depth : nat) (ray : Ray num) (i : nat),
    (i <= snd (radianceAtDepth M scene n depth ray i)
     <= i + maxDraws (Z.to_nat n) depth)%nat.
Proof.
  induction depth as [|depth IH]; intros ray i; [simpl; lia|].
  rewrite radianceAtDepth_S.
  destruct (nearestHit ray scene) as [hit|]; [|simpl; lia].
  destruct (materials scene !! material (target (geometry hit))) as [m|];
    [|simpl; lia].
  rewrite snd_bind_ret. cbn [maxDraws].
  apply forLoop_draws. intros acc k. unfold bind.
  destruct (cosineWeightedHemisphereSample M (normal hit) k) as [dir k'] eqn:Es.
  assert (Hk' : k' = S (S k)).
  { change k' with (snd (dir, k')). rewrite <- Es. apply sample_draws. }
  specialize (IH (indirectRay hit dir) k').
  destruct (radianceAtDepth M scene n depth (indirectRay hit dir) k')
    as [[incoming|] k'']; cbn [ret snd] in *; lia.
Qed.

Lemma forLoop_idle {S} (body : S -> Rand S) (k : nat) :
  (forall acc i, body acc i = (acc, Datatypes.S (Datatypes.S i))) ->
  forall acc i, forLoop k body acc i = (acc, (i + 2 * k)%nat).
Proof.
  intros Hbody. induction k as [|k IH]; intros acc i.
  - simpl. unfold ret. f_equal. lia.
  - cbn [forLoop]. unfold bind. rewrite Hbody, IH. f_equal. lia.
Qed.

(** At depth 0 the samples of a bounce are drawn and thrown away. *)
Lemma forLoop_depth_0 (M : MathEnv num) (scene : Scene num) (n : Z)
  (hit : Contact num) (m : Material num) (k : nat) :
  forall (acc : vec3.t num) (i : nat),
    forLoop k
      (fun indirectLight =>
         let* indirectDir := cosineWeightedHemisphereSample M (normal hit) in
         let* incomingRadiance :=
           radianceAtDepth M scene n 0 (indirectRay hit indirectDir) in
         match incomingRadiance with
         | Some incoming =>
             ret (vec3.add indirectLight (vec3.multiply (albedo m) incoming))
         | None => ret indirectLight
         end)
      acc i
    = (acc, (i + 2 * k)%nat).
Proof. apply forLoop_idle. reflexivity. Qed.

Lemma occluded_single (scene : Scene num) (hit : Contact num)
  (l : ref (Light num)) :
  (forall s, In s (sceneSpheres scene) -> addr s = addr (geometry hit)) ->
  occluded scene hit l = false.
Proof.
  intros Hall. unfold occluded. fold (sceneSpheres scene).
  induction (sceneSpheres scene) as [|s ss IH]; [reflexivity|].
  rewrite filter_cons. destruct (decide _) as [Hp|_].
  - exfalso. rewrite (Hall s) in Hp by (simpl; auto).
    rewrite Nat.eqb_refl in Hp. exact Hp.
  - apply IH. intros s' Hs'. apply Hall. simpl. auto.
Qed.
End trace_structure.

(** X14: a call of [radianceForRay] with [indirectSamples = n] at depth
    [d] makes at most [maxDraws n d] calls of [Math.random]
    ([maxDraws n 0 = 0], [maxDraws n (d+1) = n·(2 + maxDraws n d)], that is
    [2(n + n² + … + n^d)]), in every arithmetic; the count of draws never
    goes back. *)
Theorem radianceForRay_draws_bound :
  forall (num : Type) (A : Arith num) (M : MathEnv num) (ray : Ray num)
         (scene : Scene num) (depth indirectSamples : Z) (i : nat),
    (i <= snd (radianceForRay M ray scene depth indirectSamples i)
     <= i + maxDraws (Z.to_nat indirectSamples) (Z.to_nat depth))%nat.
Proof.
  intros num A M ray scene depth n i. unfold radianceForRay.
  apply radianceAtDepth_draws.
Qed.

(** X15: in a scene with a single sphere no light is ever found occluded:
    the sphere that was hit is left out of the shadow test, in every
    arithmetic and wherever the light is, behind the sphere included. *)
Theorem occluded_single_sphere :
  forall (num : Type) (A : Arith num) (scene : Scene num)
         (hit : Contact num) (l : ref (Light num)),
    (forall s, In s (sceneSpheres scene) -> addr s = addr (geometry hit)) ->
    occluded scene hit l = false.
Proof. intros num A scene hit l Hall. apply occluded_single. exact Hall. Qed.

Lemma occluded_single_sphere_witness :
  (forall s, In s (sceneSpheres (Example.scene (Example.vec 0 0 (-9)))) ->
             addr s = addr (geometry Example.hit)) /\
  occluded (Example.scene (Example.vec 0 0 (-9))) Example.hit
    (mkRef 1 {| radiantPower := 1000%float;
                light_position := Example.vec 0 0 (-9) |}) = false.
Proof.
  assert (H : forall s,
             In s (sceneSpheres (Example.scene (Example.vec 0 0 (-9)))) ->
             addr s = addr (geometry Example.hit)).
  { intros s [<-|[]]. reflexivity. }
  split; [exact H|].
  exact (occluded_single_sphere float Farith _ Example.hit _ H).
Defined.

(** ** The tracer: direct lighting, in exact arithmetic *)

Section direct_exact.
Context (div0 : R -> R).
#[local] Hint Extern 0 (Arith R) => exact (Rarith div0) : typeclass_instances.
Import Exact Geometry.
Local Open Scope R_scope.

Lemma create_zero : vec3.create = vec 0 0 0.
Proof. reflexivity. Qed.

Lemma add_zero_r (v : vec3.t R) : vec3.add v (vec 0 0 0) = v.
Proof. destruct v. unfold_vec. f_equal; ring. Qed.

Lemma scale_zero (k : R) : vec3.scale (vec 0 0 0) k = vec 0 0 0.
Proof. unfold_vec. f_equal; ring. Qed.

Lemma multiply_zero_r (v : vec3.t R) : vec3.multiply v (vec 0 0 0) = vec 0 0 0.
Proof. destruct v. unfold_vec. f_equal; ring. Qed.

Lemma fold_add_unoccluded {L} (p : L -> bool) (g : L -> vec3.t R)
  (l : list L) :
  forall acc,
    fold_left vec3.add
      (map (fun x => if p x then vec3.create else g x) l) acc
    = fold_left vec3.add
        (map g (List.filter (fun x => negb (p x)) l)) acc.
Proof.
  induction l as [|x l IH]; intros acc; [reflexivity|].
  cbn [map fold_left List.filter]. destruct (p x); cbn [negb].
  - rewrite create_zero, add_zero_r. apply IH.
  - cbn [map fold_left]. apply IH.
Qed.

(** The value of [radianceForRay] when nothing is lit. *)
Lemma radianceAtDepth_dark (u : nat -> R) (scene : Scene R) (n : Z) :
  sceneLights scene = [] ->
  forall (depth : nat) (ray : Ray R) (i : nat),
    match fst (radianceAtDepth (RMath u) scene n depth ray i) with
    | Some radiance => radiance = vec 0 0 0
    | None => True
    end.
Proof.
  intros Hdark. induction depth as [|depth IH]; intros ray i; [exact I|].
  rewrite radianceAtDepth_S.
  destruct (nearestHit ray scene) as [hit|]; [|exact I].
  destruct (materials scene !! material (target (geometry hit))) as [m|];
    [|exact I].
  rewrite fst_bind_ret.
  assert (Hdirect : directLight scene hit m = vec 0 0 0).
  { unfold directLight. fold (sceneLights scene). rewrite Hdark. reflexivity. }
  rewrite Hdirect.
  match goal with
  | |- context [forLoop ?k ?body ?acc i] =>
      pose proof (forLoop_invariant (fun v => v = vec 0 0 0) body k) as Hloop;
      rewrite (Hloop)
  end.
  - rewrite scale_zero. apply add_zero_r.
  - intros acc k ->. unfold bind.
    destruct (cosineWeightedHemisphereSample (RMath u) (normal hit) k)
      as [dir k'].
    specialize (IH (indirectRay hit dir) k').
    destruct (radianceAtDepth (RMath u) scene n depth (indirectRay hit dir) k')
      as [[incoming|] k'']; cbn [ret fst] in *; [|reflexivity].
    rewrite IH, multiply_zero_r. apply add_zero_r.
  - reflexivity.
Qed.

(** X16: with [depth = 1] the radiance is the direct lighting of the
    nearest hit, alone: the [indirectSamples >= 1] samples of the bounce
    are drawn (two calls of [Math.random] each) and every one of them
    comes back without radiance. *)
Theorem radianceForRay_depth_1 :
  forall (u : nat -> R) (ray : Ray R) (scene : Scene R)
         (indirectSamples : Z) (i : nat),
    (1 <= indirectSamples)%Z ->
    radianceForRay (RMath u) ray scene 1 indirectSamples i =
    match nearestHit ray scene with
    | None => (None, i)
    | Some hit =>
        match materials scene !! material (target (geometry hit)) with
        | None => (None, i)
        | Some m =>
            (Some (directLight scene hit m),
             (i + 2 * Z.to_nat indirectSamples)%nat)
        end
    end.
Proof.
  intros u ray scene n i Hn. unfold radianceForRay.
  change (Z.to_nat 1) with 1%nat. rewrite radianceAtDepth_S.
  destruct (nearestHit ray scene) as [hit|]; [|reflexivity].
  destruct (materials scene !! material (target (geometry hit))) as [m|];
    [|reflexivity].
  unfold bind at 1. rewrite forLoop_depth_0. unfold ret.
  rewrite create_zero, scale_zero, add_zero_r. reflexivity.
Qed.

(** X17: a scene without lights is black: whatever the depth and the
    draws, with [indirectSamples >= 1] every radiance that
    [radianceForRay] returns is exactly (0,0,0). *)
Theorem radianceForRay_no_lights :
  forall (u : nat -> R) (ray : Ray R) (scene : Scene R)
         (depth indirectSamples : Z) (i : nat),
    sceneLights scene = [] -> (1 <= indirectSamples)%Z ->
    match fst (radianceForRay (RMath u) ray scene depth indirectSamples i) with
    | Some radiance => radiance = vec 0 0 0
    | None => True
    end.
Proof.
  intros u ray scene depth n i Hdark _. unfold radianceForRay.
  apply radianceAtDepth_dark. exact Hdark.
Qed.

(** X18: the direct lighting is the sum, in the order of [scene.objects],
    of [evaluatePointLight] over the lights that are not occluded; an
    occluded light adds nothing. *)
Theorem directLight_unoccluded :
  forall (scene : Scene R) (hit : Contact R) (material : Material R),
    directLight scene hit material =
    fold_left vec3.add
      (map (fun l => evaluatePointLight (target l) hit material)
         (List.filter (fun l => negb (occluded scene hit l))
            (sceneLights scene)))
      (vec 0 0 0).
Proof.
  intros scene hit material. unfold directLight. fold (sceneLights scene).
  rewrite (fold_add_unoccluded (occluded scene hit)
             (fun l => evaluatePointLight (target l) hit material)).
  reflexivity.
Qed.

(** X19: a contact of [intersectSegSphere] with a segment of positive
    length lies on the sphere and on the segment: it is
    [start + t·(end − start)] with [0 <= t <= 1]. *)
Theorem intersectSegSphere_on_segment :
  forall (seg : Seg R) (s : ref (Sphere R)),
    start seg <> end_ seg ->
    match intersectSegSphere seg s with
    | Some c =>
        onSphere (position c) (target s) /\
        exists t, 0 <= t <= 1 /\ position c = pointAt (segRay seg) t
    | None => True
    end.
Proof.
  intros seg s Hne.
  destruct (intersectSegSphere seg s) as [c|] eqn:Hc; [|exact I].
  apply intersectSegSphere_Some in Hc as (t & Ht & H0 & H1 & ->).
  apply Rltb_false in H0. apply Rltb_false in H1.
  assert (Ha : 0 < norm2 (direction (segRay seg))).
  { apply norm2_pos. cbn [direction segRay]. rewrite subtract_exact.
    intros E. apply Hne. symmetry. apply minus_zero. exact E. }
  split.
  - exact (raySphereT_on_sphere div0 (segRay seg) (target s) t Ha Ht).
  - exists t. split; [exact_arith; lra | reflexivity].
Qed.
End direct_exact.

Lemma radianceForRay_depth_1_witness :
  (1 <= 3)%Z /\
  snd (radianceForRay (arith := Rarith Exact.anyDiv0)
         (RMath (fun _ => (1 / 4)%R)) Exact.ray Exact.scene 1 3 0)
  = match nearestHit (arith := Rarith Exact.anyDiv0) Exact.ray Exact.scene with
    | None => 0%nat
    | Some hit =>
        match materials Exact.scene !! material (target (geometry hit)) with
        | None => 0%nat
        | Some _ => 6%nat
        end
    end.
Proof.
  assert (Hn : (1 <= 3)%Z) by lia.
  split; [exact Hn|].
  rewrite (radianceForRay_depth_1 Exact.anyDiv0 (fun _ => (1 / 4)%R)
             Exact.ray Exact.scene 3 0 Hn).
  destruct (nearestHit Exact.ray Exact.scene) as [hit|]; [|reflexivity].
  destruct (materials Exact.scene !! material (target (geometry hit)));
    reflexivity.
Defined.

Lemma radianceForRay_no_lights_witness :
  sceneLights Geometry.darkScene = [] /\ (1 <= 2)%Z /\
  match fst (radianceForRay (arith := Rarith Exact.anyDiv0)
               (RMath (fun _ => (1 / 4)%R)) Exact.ray Geometry.darkScene
               3 2 0) with
  | Some radiance => radiance = Exact.vec 0 0 0
  | None => True
  end.
Proof.
  assert (Hdark : sceneLights Geometry.darkScene = []) by reflexivity.
  assert (Hn : (1 <= 2)%Z) by lia.
  split; [exact Hdark|]. split; [exact Hn|].
  exact (radianceForRay_no_lights Exact.anyDiv0 (fun _ => (1 / 4)%R)
           Exact.ray Geometry.darkScene 3 2 0 Hdark Hn).
Defined.

Lemma intersectSegSphere_on_segment_witness :
  start Geometry.throughBall <> end_ Geometry.throughBall /\
  match intersectSegSphere (arith := Rarith Exact.anyDiv0)
          Geometry.throughBall Geometry.ball with
  | Some c => Geometry.onSphere (position c) (target Geometry.ball)
  | None => True
  end.
Proof.
  assert (Hne : start Geometry.throughBall <> end_ Geometry.throughBall).
  { intros E. apply (f_equal vec3.z) in E. simpl in E. lra. }
  split; [exact Hne|].
  pose proof (intersectSegSphere_on_segment Exact.anyDiv0
                Geometry.throughBall Geometry.ball Hne) as H.
  destruct (intersectSegSphere Geometry.throughBall Geometry.ball);
    [apply H|exact I].
Defined.

(** ** The driver: random scenes and the image *)

Section randomScene_structure.
Context {num : Type} {arith : Arith num}.

Lemma randomScene_closed (M : MathEnv num) (i : nat) :
  randomScene M i =
  ({| camera := {| fovY := ndiv (ofZ 10472) (ofZ 10000) |};
      materials :=
        list_to_map
          (map (fun k => (colorName k, drawnMaterial M (7 * k + i)))
               (seq 0 10));
      objects :=
        map (fun k => sphere (drawnSphere M k (7 * k + i))) (seq 0 10) ++
        map (fun k => light (drawnLight M (4 * k + 70 + i))) (seq 0 3) |},
   (82 + i)%nat).
Proof. vm_compute. reflexivity. Qed.

Lemma randomScene_spheres (M : MathEnv num) (i : nat) :
  sceneSpheres (fst (randomScene M i)) =
  map (fun k => mkRef k (drawnSphere M k (7 * k + i))) (seq 0 10).
Proof. rewrite randomScene_closed. vm_compute. reflexivity. Qed.

Lemma randomScene_lights (M : MathEnv num) (i : nat) :
  sceneLights (fst (randomScene M i)) =
  map (fun k => mkRef (10 + k) (drawnLight M (4 * k + 70 + i))) (seq 0 3).
Proof. rewrite randomScene_closed. vm_compute. reflexivity. Qed.

Lemma randomScene_lookup (M : MathEnv num) (i k : nat) :
  (k < 10)%nat ->
  materials (fst (randomScene M i)) !! colorName k
  = Some (drawnMaterial M (7 * k + i)).
Proof.
  intros Hk. rewrite randomScene_closed.
  do 10 (destruct k as [|k]; [vm_compute; reflexivity|]). lia.
Qed.

Lemma randomScene_lookup_Some (M : MathEnv num) (i : nat) name m :
  materials (fst (randomScene M i)) !! name = Some m ->
  exists k, (k < 10)%nat /\ name = colorName k /\
            m = drawnMaterial M (7 * k + i).
Proof.
  rewrite randomScene_closed. cbn [fst materials]. intros H.
  apply elem_of_list_to_map_2 in H.
  apply list_elem_of_In in H. apply in_map_iff in H as (k & [= <- <-] & Hk).
  apply in_seq in Hk. exists k. split; [lia|]. split; reflexivity.
Qed.

Lemma randomScene_sphere_material (M : MathEnv num) (i : nat) s :
  In s (sceneSpheres (fst (randomScene M i))) ->
  (addr s < 10)%nat /\ target s = drawnSphere M (addr s) (7 * addr s + i) /\
  materials (fst (randomScene M i)) !! material (target s)
  = Some (drawnMaterial M (7 * addr s + i)).
Proof.
  rewrite randomScene_spheres. intros H.
  apply in_map_iff in H as (k & <- & Hk). apply in_seq in Hk.
  cbn [addr target drawnSphere material]. split; [lia|]. split; [reflexivity|].
  apply randomScene_lookup. lia.
Qed.

Lemma randomScene_none (M M' : MathEnv num) (i : nat) (ray : Ray num)
  (depth n : Z) (j : nat) :
  fst (radianceForRay M' ray (fst (randomScene M i)) depth n j) = None <->
  (depth <= 0)%Z \/ nearestHit ray (fst (randomScene M i)) = None.
Proof.
  destruct (Z_le_gt_dec depth 0) as [Hd|Hd].
  - rewrite radianceForRay_base by assumption. simpl. tauto.
  - rewrite radianceForRay_step by lia.
    destruct (nearestHit ray (fst (randomScene M i))) as [hit|] eqn:Hhit.
    + assert (Hin : In hit (rayHits ray (fst (randomScene M i)))).
      { unfold nearestHit in Hhit.
        destruct (rayHits ray (fst (randomScene M i))); [discriminate|].
        injection Hhit as ->. left. reflexivity. }
      apply In_rayHits in Hin as (s & Hs & Hc).
      apply intersectRaySphere_Some in Hc as (t & _ & _ & ->).
      cbn [contactAt geometry].
      destruct (randomScene_sphere_material M i s Hs) as (_ & _ & ->).
      split.
      * intros E. exfalso. revert E. apply fst_bind_Some.
      * intros [Hle|Hn]; [lia|discriminate].
    + simpl. tauto.
Qed.
End randomScene_structure.

(** X20: [randomScene] calls [Math.random] exactly 82 times and returns
    thirteen objects, ten spheres at the indices 0 to 9 of [objects] and
    then three lights at the indices 10 to 12, in every arithmetic.  The
    sphere of round [k] has the material name [color k], its position is
    made of the draws [7k+3] to [7k+5] and its radius of the draw [7k+6];
    the light of round [k] takes its power from the draw [70+4k] and its
    position from the three draws after it. *)
Theorem randomScene_layout :
  forall (num : Type) (A : Arith num) (M : MathEnv num) (i : nat),
    snd (randomScene M i) = (82 + i)%nat /\
    length (objects (fst (randomScene M i))) = 13%nat /\
    sceneSpheres (fst (randomScene M i))
    = map (fun k => mkRef k (drawnSphere M k (7 * k + i))) (seq 0 10) /\
    sceneLights (fst (randomScene M i))
    = map (fun k => mkRef (10 + k) (drawnLight M (4 * k + 70 + i)))
        (seq 0 3).
Proof.
  intros num A M i. split; [|split; [|split]].
  - rewrite randomScene_closed. reflexivity.
  - rewrite randomScene_closed. reflexivity.
  - apply randomScene_spheres.
  - apply randomScene_lights.
Qed.

(** X21: in a scene of [randomScene] the material name of every sphere
    resolves, to the albedo drawn in the round of that sphere (the ten
    names are distinct, so no round overwrites another); hence
    [radianceForRay] returns [undefined] on such a scene only when the
    depth is used up or the ray hits no sphere, in every arithmetic. *)
Theorem randomScene_materials_resolve :
  forall (num : Type) (A : Arith num) (M M' : MathEnv num) (i : nat)
         (ray : Ray num) (depth indirectSamples : Z) (j : nat),
    (forall s, In s (sceneSpheres (fst (randomScene M i))) ->
       materials (fst (randomScene M i)) !! material (target s)
       = Some (drawnMaterial M (7 * addr s + i))) /\
    (fst (radianceForRay M' ray (fst (randomScene M i)) depth
            indirectSamples j) = None <->
     (depth <= 0)%Z \/ nearestHit ray (fst (randomScene M i)) = None).
Proof.
  intros num A M M' i ray depth n j. split.
  - intros s Hs. apply (randomScene_sphere_material M i s Hs).
  - apply randomScene_none.
Qed.

Section pixel_index.
Local Open Scope Z_scope.

Lemma pixelIndex_range (W H x y : Z) :
  0 <= x < W -> 0 <= y < H ->
  0 <= pixelIndex W x y /\ pixelIndex W x y + 4 <= 4 * W * H.
Proof. unfold pixelIndex. intros Hx Hy. split; nia. Qed.

Lemma pixelIndex_inj (W x y x' y' a b : Z) :
  0 <= x < W -> 0 <= x' < W -> 0 <= a < 4 -> 0 <= b < 4 ->
  pixelIndex W x y + a = pixelIndex W x' y' + b ->
  x = x' /\ y = y' /\ a = b.
Proof.
  unfold pixelIndex. intros Hx Hx' Ha Hb E.
  assert (Hab : a = b) by lia.
  assert (E' : (y - y') * W = x' - x) by lia.
  assert (Hy : y = y') by nia.
  subst. lia.
Qed.

Lemma pixelIndex_next (W x y : Z) :
  pixelIndex W (x + 1) y = pixelIndex W x y + 4.
Proof. unfold pixelIndex. lia. Qed.

Lemma pixelIndex_row (W y : Z) :
  pixelIndex W 0 (y + 1) = pixelIndex W W y.
Proof. unfold pixelIndex. lia. Qed.
End pixel_index.

(** X22: the index [(y * width + x) * 4] of a pixel inside an image of
    [width] by [height] pixels leaves room for its four bytes in a buffer
    of [4 * width * height] bytes, and the bytes of two pixels never
    overlap: equal byte indices mean the same pixel and the same
    channel. *)
Theorem pixelIndex_disjoint :
  forall (W H x y x' y' a b : Z),
    (0 <= x < W)%Z -> (0 <= y < H)%Z -> (0 <= x' < W)%Z ->
    (0 <= a < 4)%Z -> (0 <= b < 4)%Z ->
    (0 <= pixelIndex W x y /\ pixelIndex W x y + 4 <= 4 * W * H)%Z /\
    ((pixelIndex W x y + a = pixelIndex W x' y' + b)%Z ->
     x = x' /\ y = y' /\ a = b).
Proof.
  intros W H x y x' y' a b Hx Hy Hx' Ha Hb. split.
  - apply pixelIndex_range; assumption.
  - apply pixelIndex_inj; assumption.
Qed.

Lemma pixelIndex_disjoint_witness :
  (0 <= 1 < 4)%Z /\ (0 <= 1 < 2)%Z /\ (0 <= 2 < 4)%Z /\
  (0 <= 0 < 4)%Z /\ (0 <= 3 < 4)%Z /\
  (0 <= pixelIndex 4 1 1 /\ pixelIndex 4 1 1 + 4 <= 4 * 4 * 2)%Z /\
  ((pixelIndex 4 1 1 + 0 = pixelIndex 4 2 0 + 3)%Z ->
   1%Z = 2%Z /\ 1%Z = 0%Z /\ 0%Z = 3%Z).
Proof.
  assert (H1 : (0 <= 1 < 4)%Z) by lia.
  assert (H2 : (0 <= 1 < 2)%Z) by lia.
  assert (H3 : (0 <= 2 < 4)%Z) by lia.
  assert (H4 : (0 <= 0 < 4)%Z) by lia.
  assert (H5 : (0 <= 3 < 4)%Z) by lia.
  repeat (split; [assumption|]).
  exact (pixelIndex_disjoint 4 2 1 1 2 0 0 3 H1 H2 H3 H4 H5).
Defined.

Section render_structure.
Context {num : Type} {arith : Arith num} {uint8 : Uint8 num}.

Lemma forRange_invariant {S} (P : nat -> S -> nat -> Prop)
  (body : nat -> S -> Rand S) (bound : nat) :
  (forall k acc j, (k < bound)%nat -> P k acc j ->
     P (Datatypes.S k) (fst (body k acc j)) (snd (body k acc j))) ->
  forall n k acc j, (n + k <= bound)%nat -> P k acc j ->
    P (n + k)%nat (fst (forRange n k body acc j))
      (snd (forRange n k body acc j)).
Proof.
  intros Hbody. induction n as [|n IH]; intros k acc j Hb HP; [exact HP|].
  simpl. unfold bind. specialize (Hbody k acc j ltac:(lia) HP).
  destruct (body k acc j) as [acc' j'].
  replace (Datatypes.S (n + k)) with (n + Datatypes.S k)%nat by lia.
  apply IH; [lia|exact Hbody].
Qed.

Lemma Buffer_set_length (data : list Z) (i b : Z) :
  length (Buffer_set data i b) = length data.
Proof.
  unfold Buffer_set. destruct (i <? 0)%Z; [reflexivity|].
  apply length_insert.
Qed.

Lemma Buffer_set_lookup (data : list Z) (i b : Z) :
  (0 <= i)%Z -> (Z.to_nat i < length data)%nat ->
  Buffer_set data i b !! Z.to_nat i = Some b.
Proof.
  intros Hi Hl. unfold Buffer_set.
  destruct (i <? 0)%Z eqn:E; [lia|].
  apply list_lookup_insert_eq. exact Hl.
Qed.

Lemma Buffer_set_lookup_ne (data : list Z) (i b : Z) (k : nat) :
  Z.of_nat k <> i -> Buffer_set data i b !! k = data !! k.
Proof.
  intros Hk. unfold Buffer_set.
  destruct (i <? 0)%Z eqn:E; [reflexivity|].
  apply list_lookup_insert_ne. lia.
Qed.

Lemma writePixel_length (data : list Z) (idx : Z) (color : vec3.t num) :
  length (writePixel data idx color) = length data.
Proof. unfold writePixel. rewrite !Buffer_set_length. reflexivity. Qed.

Lemma writePixel_frame (data : list Z) (idx : Z) (color : vec3.t num)
  (k : nat) :
  (Z.of_nat k < idx \/ idx + 4 <= Z.of_nat k)%Z ->
  writePixel data idx color !! k = data !! k.
Proof.
  intros Hk. unfold writePixel.
  rewrite !Buffer_set_lookup_ne by lia. reflexivity.
Qed.

Lemma writePixel_bytes (data : list Z) (idx : Z) (color : vec3.t num) :
  (0 <= idx)%Z -> (idx + 4 <= Z.of_nat (length data))%Z ->
  map (fun c => writePixel data idx color !! (Z.to_nat idx + c)%nat)
      [0; 1; 2; 3]%nat
  = map Some (pixelBytes color).
Proof.
  intros Hi Hl. unfold writePixel, pixelBytes. cbn [map].
  repeat f_equal.
  - rewrite !Buffer_set_lookup_ne by lia.
    replace (Z.to_nat idx + 0)%nat with (Z.to_nat (idx + 0)) by lia.
    apply Buffer_set_lookup; lia.
  - rewrite !Buffer_set_lookup_ne by lia.
    replace (Z.to_nat idx + 1)%nat with (Z.to_nat (idx + 1)) by lia.
    apply Buffer_set_lookup; [lia|]. rewrite !Buffer_set_length. lia.
  - rewrite !Buffer_set_lookup_ne by lia.
    replace (Z.to_nat idx + 2)%nat with (Z.to_nat (idx + 2)) by lia.
    apply Buffer_set_lookup; [lia|]. rewrite !Buffer_set_length. lia.
  - replace (Z.to_nat idx + 3)%nat with (Z.to_nat (idx + 3)) by lia.
    apply Buffer_set_lookup; [lia|]. rewrite !Buffer_set_length. lia.
Qed.

Lemma pixelColor_draws (M : MathEnv num) (vp : Viewport num)
  (scene : Scene num) (depth samples x y : Z) (i : nat) :
  (i <= snd (pixelColor M vp scene depth samples x y i)
   <= i + maxDraws (Z.to_nat samples) (Z.to_nat depth))%nat.
Proof.
  unfold pixelColor. rewrite snd_bind_ret. unfold radianceForRay.
  apply radianceAtDepth_draws.
Qed.

(** A row: the image keeps its size, the bytes of the other rows stay, and
    every pixel of the row holds the bytes of the colour of its ray. *)
Lemma renderRow_spec (M : MathEnv num) (vp : Viewport num)
  (scene : Scene num) (depth samples y : Z) (png : PNG) (i : nat) :
  (0 <= y < png_height png)%Z -> (0 <= png_width png)%Z ->
  Z.of_nat (length (png_data png))
  = (4 * png_width png * png_height png)%Z ->
  png_width (fst (renderRow M vp scene depth samples y png i))
  = png_width png /\
  png_height (fst (renderRow M vp scene depth samples y png i))
  = png_height png /\
  length (png_data (fst (renderRow M vp scene depth samples y png i)))
  = length (png_data png) /\
  (i <= snd (renderRow M vp scene depth samples y png i)
   <= i + Z.to_nat (png_width png)
          * maxDraws (Z.to_nat samples) (Z.to_nat depth))%nat /\
  (forall k : nat,
     (Z.of_nat k < pixelIndex (png_width png) 0 y \/
      pixelIndex (png_width png) 0 (y + 1) <= Z.of_nat k)%Z ->
     png_data (fst (renderRow M vp scene depth samples y png i)) !! k
     = png_data png !! k) /\
  (forall x, (0 <= x < png_width png)%Z ->
     exists j,
       (i <= j <= snd (renderRow M vp scene depth samples y png i))%nat /\
       pixelAt (fst (renderRow M vp scene depth samples y png i)) x y
       = map Some
           (pixelBytes (fst (pixelColor M vp scene depth samples x y j)))).
Proof.
  intros Hy HW Hlen. unfold renderRow.
  set (W := png_width png) in *. set (H := png_height png) in *.
  set (body := fun (x : nat) (png0 : PNG) => _).
  pose (P := fun (k : nat) (p : PNG) (j : nat) =>
    png_width p = W /\ png_height p = H /\
    length (png_data p) = length (png_data png) /\
    (i <= j <= i + k * maxDraws (Z.to_nat samples) (Z.to_nat depth))%nat /\
    (forall n : nat,
       (Z.of_nat n < pixelIndex W 0 y \/
        pixelIndex W (Z.of_nat k) y <= Z.of_nat n)%Z ->
       png_data p !! n = png_data png !! n) /\
    (forall x : nat, (x < k)%nat ->
       exists j', (i <= j' <= j)%nat /\
         pixelAt p (Z.of_nat x) y
         = map Some
             (pixelBytes
                (fst (pixelColor M vp scene depth samples (Z.of_nat x) y j'))))).
  assert (Hstep : forall k acc j, (k < Z.to_nat W)%nat -> P k acc j ->
            P (Datatypes.S k) (fst (body k acc j)) (snd (body k acc j))).
  { intros k acc j Hk (Hw & Hh & Hl & Hj & Hframe & Hdone).
    subst body. cbv beta. unfold bind, ret.
    pose proof (pixelColor_draws M vp scene depth samples (Z.of_nat k) y j)
      as Hdraws.
    destruct (pixelColor M vp scene depth samples (Z.of_nat k) y j)
      as [color j'] eqn:Ec.
    cbn [fst snd png_width png_height png_data] in *. rewrite Hw.
    destruct (pixelIndex_range W H (Z.of_nat k) y ltac:(lia) Hy) as [Hi0 Hi1].
    assert (Hnext : pixelIndex W (Z.of_nat (Datatypes.S k)) y
                    = (pixelIndex W (Z.of_nat k) y + 4)%Z).
    { rewrite Nat2Z.inj_succ. apply pixelIndex_next. }
    assert (Hfirst : (pixelIndex W 0 y <= pixelIndex W (Z.of_nat k) y)%Z).
    { unfold pixelIndex. lia. }
    unfold P. cbn [fst snd png_width png_height png_data].
    split; [reflexivity|]. split; [exact Hh|].
    split; [|split; [|split]].
    - rewrite writePixel_length. exact Hl.
    - rewrite Nat.mul_succ_l. lia.
    - intros n Hn. rewrite writePixel_frame by lia. apply Hframe. lia.
    - intros x Hx. destruct (Nat.eq_dec x k) as [->|Hne].
      + exists j. split; [lia|]. rewrite Ec. cbn [fst].
        unfold pixelAt. cbn [png_width png_data].
        apply writePixel_bytes; lia.
      + destruct (Hdone x ltac:(lia)) as (j0 & Hj0 & Hpx).
        exists j0. split; [lia|]. rewrite <- Hpx.
        unfold pixelAt. cbn [png_width png_data]. rewrite Hw.
        assert (Hlt : (pixelIndex W (Z.of_nat x) y + 4
                       <= pixelIndex W (Z.of_nat k) y)%Z).
        { unfold pixelIndex. lia. }
        assert (Hx0 : (0 <= pixelIndex W (Z.of_nat x) y)%Z).
        { apply (pixelIndex_range W H); lia. }
        cbn [map]. rewrite !writePixel_frame by lia. reflexivity. }
  pose proof (forRange_invariant P body (Z.to_nat W) Hstep (Z.to_nat W) 0%nat
                png i ltac:(lia)) as Hinv.
  rewrite Nat.add_0_r in Hinv.
  destruct Hinv as (Hw & Hh & Hl & Hj & Hframe & Hdone).
  { unfold P. refine (conj eq_refl (conj eq_refl (conj eq_refl
      (conj _ (conj (fun _ _ => eq_refl) _))))).
    - lia.
    - intros x Hx. lia. }
  refine (conj Hw (conj Hh (conj Hl (conj Hj (conj _ _))))).
  - intros k Hk. apply Hframe. rewrite Z2Nat.id by lia.
    rewrite <- pixelIndex_row. lia.
  - intros x Hx. destruct (Hdone (Z.to_nat x) ltac:(lia)) as (j & Hj' & Hpx).
    rewrite Z2Nat.id in Hpx by lia. exists j. split; assumption.
Qed.

(** The image: it keeps its size, and every pixel holds the bytes of the
    colour of its ray through the viewport of the image. *)
Lemma render_spec (M : MathEnv num) (scene : Scene num) (depth samples : Z)
  (png : PNG) (i : nat) :
  (0 <= png_width png)%Z -> (0 <= png_height png)%Z ->
  Z.of_nat (length (png_data png))
  = (4 * png_width png * png_height png)%Z ->
  png_width (fst (render M scene depth samples png i)) = png_width png /\
  png_height (fst (render M scene depth samples png i)) = png_height png /\
  length (png_data (fst (render M scene depth samples png i)))
  = length (png_data png) /\
  (i <= snd (render M scene depth samples png i)
   <= i + Z.to_nat (png_height png)
          * (Z.to_nat (png_width png)
             * maxDraws (Z.to_nat samples) (Z.to_nat depth)))%nat /\
  (forall x y, (0 <= x < png_width png)%Z -> (0 <= y < png_height png)%Z ->
     exists j,
       (i <= j <= snd (render M scene depth samples png i))%nat /\
       pixelAt (fst (render M scene depth samples png i)) x y
       = map Some
           (pixelBytes
              (fst (pixelColor M (imageViewport M scene png) scene depth
                      samples x y j)))).
Proof.
  intros HW HH Hlen. unfold render.
  change (Viewport_new M _ (camera scene)) with (imageViewport M scene png).
  set (vp := imageViewport M scene png).
  set (W := png_width png) in *. set (H := png_height png) in *.
  set (D := maxDraws (Z.to_nat samples) (Z.to_nat depth)).
  set (body := fun (y : nat) (png0 : PNG) => _).
  pose (P := fun (k : nat) (p : PNG) (j : nat) =>
    png_width p = W /\ png_height p = H /\
    length (png_data p) = length (png_data png) /\
    (i <= j <= i + k * (Z.to_nat W * D))%nat /\
    (forall (x : Z) (y : nat), (0 <= x < W)%Z -> (y < k)%nat ->
       exists j', (i <= j' <= j)%nat /\
         pixelAt p x (Z.of_nat y)
         = map Some
             (pixelBytes
                (fst (pixelColor M vp scene depth samples x (Z.of_nat y) j'))))).
  assert (Hstep : forall k acc j, (k < Z.to_nat H)%nat -> P k acc j ->
            P (Datatypes.S k) (fst (body k acc j)) (snd (body k acc j))).
  { intros k acc j Hk (Hw & Hh & Hl & Hj & Hdone).
    subst body. cbv beta.
    destruct (renderRow_spec M vp scene depth samples (Z.of_nat k) acc j)
      as (Hw' & Hh' & Hl' & Hj' & Hframe & Hrow).
    { rewrite Hh. lia. }
    { rewrite Hw. exact HW. }
    { rewrite Hl, Hw, Hh. exact Hlen. }
    fold D in Hj'. rewrite Hw in Hj', Hframe, Hrow.
    unfold P. split; [congruence|]. split; [congruence|].
    split; [congruence|]. split; [rewrite Nat.mul_succ_l; lia|].
    intros x y Hx Hy. destruct (Nat.eq_dec y k) as [->|Hne].
    - destruct (Hrow x Hx) as (j' & Hj'' & Hpx). exists j'.
      split; [lia|exact Hpx].
    - destruct (Hdone x y Hx ltac:(lia)) as (j0 & Hj0 & Hpx).
      exists j0. split; [lia|]. rewrite <- Hpx.
      unfold pixelAt. rewrite Hw', Hw.
      destruct (pixelIndex_range W H x (Z.of_nat y) Hx ltac:(lia))
        as [Hi0 _].
      assert (Hlt : (pixelIndex W x (Z.of_nat y) + 4
                     <= pixelIndex W 0 (Z.of_nat k))%Z).
      { unfold pixelIndex. nia. }
      cbn [map]. rewrite !Hframe by lia. reflexivity. }
  pose proof (forRange_invariant P body (Z.to_nat H) Hstep (Z.to_nat H) 0%nat
                png i ltac:(lia)) as Hinv.
  rewrite Nat.add_0_r in Hinv.
  destruct Hinv as (Hw & Hh & Hl & Hj & Hdone).
  { unfold P. refine (conj eq_refl (conj eq_refl (conj eq_refl (conj _ _)))).
    - lia.
    - intros x y _ Hy. lia. }
  refine (conj Hw (conj Hh (conj Hl (conj Hj _)))).
  intros x y Hx Hy.
  destruct (Hdone x (Z.to_nat y) Hx ltac:(lia)) as (j & Hj' & Hpx).
  rewrite Z2Nat.id in Hpx by lia. exists j. split; assumption.
Qed.
End render_structure.

(** X23: [renderRow(y)] on an image whose buffer has four bytes for every
    pixel, for a row [y] of the image: the image keeps its size, the bytes
    of all other rows are left as they were, every pixel [(x, y)] of the
    row then holds the three colour bytes of the colour of its own ray
    (computed at some point [j] of the stream of draws) followed by the
    byte 255, and the row takes at most [width] times the draws of one
    call of [radianceForRay]; in every arithmetic. *)
Theorem renderRow_pixels :
  forall (num : Type) (A : Arith num) (U : Uint8 num) (M : MathEnv num)
         (vp : Viewport num) (scene : Scene num) (depth samples y : Z)
         (png : PNG) (i : nat),
    (0 <= y < png_height png)%Z -> (0 <= png_width png)%Z ->
    Z.of_nat (length (png_data png))
    = (4 * png_width png * png_height png)%Z ->
    let r := renderRow M vp scene depth samples y png i in
    png_width (fst r) = png_width png /\
    png_height (fst r) = png_height png /\
    length (png_data (fst r)) = length (png_data png) /\
    (i <= snd r
     <= i + Z.to_nat (png_width png)
            * maxDraws (Z.to_nat samples) (Z.to_nat depth))%nat /\
    (forall k : nat,
       (Z.of_nat k < pixelIndex (png_width png) 0 y \/
        pixelIndex (png_width png) 0 (y + 1) <= Z.of_nat k)%Z ->
       png_data (fst r) !! k = png_data png !! k) /\
    (forall x, (0 <= x < png_width png)%Z ->
       exists j,
         (i <= j <= snd r)%nat /\
         pixelAt (fst r) x y
         = map Some
             (pixelBytes (fst (pixelColor M vp scene depth samples x y j)))).
Proof.
  intros num A U M vp scene depth samples y png i Hy HW Hlen r.
  exact (renderRow_spec M vp scene depth samples y png i Hy HW Hlen).
Qed.

Lemma renderRow_pixels_witness :
  (0 <= 0 < png_height Image.blank)%Z /\ (0 <= png_width Image.blank)%Z /\
  Z.of_nat (length (png_data Image.blank))
  = (4 * png_width Image.blank * png_height Image.blank)%Z /\
  let scene := Example.scene (Example.vec 0 0 0) in
  let vp := imageViewport Example.Math0 scene Image.blank in
  let r := renderRow Example.Math0 vp scene 1 1 0 Image.blank 0 in
  png_width (fst r) = png_width Image.blank /\
  png_height (fst r) = png_height Image.blank /\
  length (png_data (fst r)) = length (png_data Image.blank) /\
  (0 <= snd r
   <= 0 + Z.to_nat (png_width Image.blank)
          * maxDraws (Z.to_nat 1) (Z.to_nat 1))%nat /\
  (forall k : nat,
     (Z.of_nat k < pixelIndex (png_width Image.blank) 0 0 \/
      pixelIndex (png_width Image.blank) 0 (0 + 1) <= Z.of_nat k)%Z ->
     png_data (fst r) !! k = png_data Image.blank !! k) /\
  (forall x, (0 <= x < png_width Image.blank)%Z ->
     exists j,
       (0 <= j <= snd r)%nat /\
       pixelAt (fst r) x 0
       = map Some
           (pixelBytes (fst (pixelColor Example.Math0 vp scene 1 1 x 0 j)))).
Proof.
  assert (Hy : (0 <= 0 < png_height Image.blank)%Z) by (simpl; lia).
  assert (HW : (0 <= png_width Image.blank)%Z) by (simpl; lia).
  assert (Hlen : Z.of_nat (length (png_data Image.blank))
                 = (4 * png_width Image.blank * png_height Image.blank)%Z)
    by reflexivity.
  split; [exact Hy|]. split; [exact HW|]. split; [exact Hlen|].
  exact (renderRow_pixels float Farith Fuint8 Example.Math0
           (imageViewport Example.Math0 (Example.scene (Example.vec 0 0 0))
              Image.blank)
           (Example.scene (Example.vec 0 0 0)) 1 1 0 Image.blank 0%nat
           Hy HW Hlen).
Defined.

(** X24: the rendering of an image whose buffer has four bytes for every
    pixel: the image keeps its size, every pixel [(x, y)] of the image
    holds the three colour bytes of the colour of the ray of that pixel
    through the viewport made of the image size and the camera of the
    scene, followed by the byte 255 (no row overwrites a pixel of another
    row), and the rendering takes at most [height * width] times the draws
    of one call of [radianceForRay]; in every arithmetic. *)
Theorem render_pixels :
  forall (num : Type) (A : Arith num) (U : Uint8 num) (M : MathEnv num)
         (scene : Scene num) (depth samples : Z) (png : PNG) (i : nat),
    (0 <= png_width png)%Z -> (0 <= png_height png)%Z ->
    Z.of_nat (length (png_data png))
    = (4 * png_width png * png_height png)%Z ->
    let r := render M scene depth samples png i in
    png_width (fst r) = png_width png /\
    png_height (fst r) = png_height png /\
    length (png_data (fst r)) = length (png_data png) /\
    (i <= snd r
     <= i + Z.to_nat (png_height png)
            * (Z.to_nat (png_width png)
               * maxDraws (Z.to_nat samples) (Z.to_nat depth)))%nat /\
    (forall x y,
       (0 <= x < png_width png)%Z -> (0 <= y < png_height png)%Z ->
       exists j,
         (i <= j <= snd r)%nat /\
         pixelAt (fst r) x y
         = map Some
             (pixelBytes
                (fst (pixelColor M (imageViewport M scene png) scene depth
                        samples x y j)))).
Proof.
  intros num A U M scene depth samples png i HW HH Hlen r.
  exact (render_spec M scene depth samples png i HW HH Hlen).
Qed.

Lemma render_pixels_witness :
  (0 <= png_width Image.blank)%Z /\ (0 <= png_height Image.blank)%Z /\
  Z.of_nat (length (png_data Image.blank))
  = (4 * png_width Image.blank * png_height Image.blank)%Z /\
  let scene := Example.scene (Example.vec 0 0 0) in
  let r := render Example.Math0 scene 1 1 Image.blank 0 in
  png_width (fst r) = png_width Image.blank /\
  png_height (fst r) = png_height Image.blank /\
  length (png_data (fst r)) = length (png_data Image.blank) /\
  (0 <= snd r
   <= 0 + Z.to_nat (png_height Image.blank)
          * (Z.to_nat (png_width Image.blank)
             * maxDraws (Z.to_nat 1) (Z.to_nat 1)))%nat /\
  (forall x y,
     (0 <= x < png_width Image.blank)%Z ->
     (0 <= y < png_height Image.blank)%Z ->
     exists j,
       (0 <= j <= snd r)%nat /\
       pixelAt (fst r) x y
       = map Some
           (pixelBytes
              (fst (pixelColor Example.Math0
                      (imageViewport Example.Math0 scene Image.blank) scene
                      1 1 x y j)))).
Proof.
  assert (HW : (0 <= png_width Image.blank)%Z) by (simpl; lia).
  assert (HH : (0 <= png_height Image.blank)%Z) by (simpl; lia).
  assert (Hlen : Z.of_nat (length (png_data Image.blank))
                 = (4 * png_width Image.blank * png_height Image.blank)%Z)
    by reflexivity.
  split; [exact HW|]. split; [exact HH|]. split; [exact Hlen|].
  exact (render_pixels float Farith Fuint8 Example.Math0
           (Example.scene (Example.vec 0 0 0)) 1 1 Image.blank 0%nat
           HW HH Hlen).
Defined.

Section main_exact.
Context (div0 : R -> R).
#[local] Hint Extern 0 (Arith R) => exact (Rarith div0) : typeclass_instances.
Import Exact.
Local Open Scope R_scope.





Lemma drawnSphere_range (u : nat -> R) (k i : nat) :
  drawsInRange u ->
  1 / 2 <= radius (drawnSphere (RMath u) k i) < 3 / 2 /\
  -5 <= vec3.x (sphere_position (drawnSphere (RMath u) k i)) < 5 /\
  -5 <= vec3.y (sphere_position (drawnSphere (RMath u) k i)) < 5 /\
  -15 < vec3.z (sphere_position (drawnSphere (RMath u) k i)) <= -5.
Proof.
  intros Hu. unfold drawnSphere, drawnPosition.
  cbn [radius sphere_position vec3.x vec3.y vec3.z draws RMath].
  exact_arith. rewrite Rdiv0_nz by lra.
  pose proof (Hu (6 + i)%nat). pose proof (Hu (3 + i)%nat).
  pose proof (Hu (1 + (3 + i))%nat). pose proof (Hu (2 + (3 + i))%nat).
  lra.
Qed.

Lemma drawnLight_range (u : nat -> R) (i : nat) :
  drawsInRange u ->
  500 <= radiantPower (drawnLight (RMath u) i) < 1500 /\
  -5 <= vec3.x (light_position (drawnLight (RMath u) i)) < 5 /\
  -5 <= vec3.y (light_position (drawnLight (RMath u) i)) < 5 /\
  -15 < vec3.z (light_position (drawnLight (RMath u) i)) <= -5.
Proof.
  intros Hu. unfold drawnLight, drawnPosition.
  cbn [radiantPower light_position vec3.x vec3.y vec3.z draws RMath].
  exact_arith.
  pose proof (Hu i). pose proof (Hu (1 + i)%nat).
  pose proof (Hu (1 + (1 + i))%nat). pose proof (Hu (2 + (1 + i))%nat).
  lra.
Qed.

Lemma drawnMaterial_range (u : nat -> R) (i : nat) :
  drawsInRange u ->
  0 <= vec3.x (albedo (drawnMaterial (RMath u) i)) < 1 /\
  0 <= vec3.y (albedo (drawnMaterial (RMath u) i)) < 1 /\
  0 <= vec3.z (albedo (drawnMaterial (RMath u) i)) < 1.
Proof.
  intros Hu. unfold drawnMaterial.
  cbn [albedo vec3.x vec3.y vec3.z draws RMath].
  pose proof (Hu i). pose proof (Hu (1 + i)%nat). pose proof (Hu (2 + i)%nat).
  lra.
Qed.

(** X25: in exact arithmetic and with draws in [0, 1), every scene of
    [randomScene] meets the assumptions of the tracer that do not depend
    on chance: albedos lie in [0, 1), radiant powers in [500, 1500), radii
    in [0.5, 1.5); and every sphere lies wholly in front of the camera
    (all of its points have a negative z), so the camera at the origin is
    outside every sphere. *)
Theorem randomScene_well_formed :
  forall (u : nat -> R) (i : nat),
    drawsInRange u ->
    let scene := fst (randomScene (RMath u) i) in
    albedosNonneg scene /\ lightsPositive scene /\ radiiPositive scene /\
    (forall name m, materials scene !! name = Some m ->
       vec3.x (albedo m) < 1 /\ vec3.y (albedo m) < 1 /\
       vec3.z (albedo m) < 1) /\
    (forall s, In s (sceneSpheres scene) ->
       1 / 2 <= radius (target s) < 3 / 2 /\
       vec3.z (sphere_position (target s)) + radius (target s) < 0 /\
       radius (target s) * radius (target s)
       < norm2 (sphere_position (target s))) /\
    (forall l, In l (sceneLights scene) ->
       500 <= radiantPower (target l) < 1500 /\
       vec3.z (light_position (target l)) <= -5).
Proof.
  intros u i Hu scene.
  assert (Hmat : forall name m, materials scene !! name = Some m ->
            0 <= vec3.x (albedo m) < 1 /\ 0 <= vec3.y (albedo m) < 1 /\
            0 <= vec3.z (albedo m) < 1).
  { intros name m Hm.
    apply randomScene_lookup_Some in Hm as (k & _ & _ & ->).
    apply drawnMaterial_range. exact Hu. }
  assert (Hsph : forall s, In s (sceneSpheres scene) ->
            1 / 2 <= radius (target s) < 3 / 2 /\
            -15 < vec3.z (sphere_position (target s)) <= -5).
  { intros s Hs.
    destruct (randomScene_sphere_material (RMath u) i s Hs) as (_ & -> & _).
    destruct (drawnSphere_range u (addr s) (7 * addr s + i) Hu)
      as (Hr & _ & _ & Hz).
    split; assumption. }
  assert (Hlit : forall l, In l (sceneLights scene) ->
            500 <= radiantPower (target l) < 1500 /\
            vec3.z (light_position (target l)) <= -5).
  { intros l Hl. unfold scene in Hl. rewrite randomScene_lights in Hl.
    apply in_map_iff in Hl as (k & <- & _). cbn [target].
    destruct (drawnLight_range u (4 * k + 70 + i) Hu) as (Hp & _ & _ & Hz).
    split; [exact Hp|lra]. }
  split; [|split; [|split; [|split; [|split]]]].
  - intros name m Hm. destruct (Hmat name m Hm) as (Hx & Hy & Hz).
    unfold nonneg. lra.
  - intros l Hl. destruct (Hlit l Hl) as [Hp _]. lra.
  - intros s Hs. destruct (Hsph s Hs) as [Hr _]. lra.
  - intros name m Hm. destruct (Hmat name m Hm) as (Hx & Hy & Hz). lra.
  - intros s Hs. destruct (Hsph s Hs) as [Hr Hz].
    split; [exact Hr|]. split; [lra|].
    unfold_vec.
    pose proof (Rle_0_sqr (vec3.x (sphere_position (target s)))) as Hx2.
    pose proof (Rle_0_sqr (vec3.y (sphere_position (target s)))) as Hy2.
    unfold Rsqr in Hx2, Hy2. nra.
  - exact Hlit.
Qed.

End main_exact.

Lemma randomScene_well_formed_witness :
  Exact.drawsInRange (fun _ => (1 / 4)%R) /\
  let scene :=
    fst (randomScene (arith := Rarith Exact.anyDiv0)
           (RMath (fun _ => (1 / 4)%R)) 0) in
  Exact.albedosNonneg scene /\ Exact.lightsPositive scene /\
  Exact.radiiPositive scene /\
  (forall name m, materials scene !! name = Some m ->
     (vec3.x (albedo m) < 1 /\ vec3.y (albedo m) < 1 /\
      vec3.z (albedo m) < 1)%R) /\
  (forall s, In s (sceneSpheres scene) ->
     (1 / 2 <= radius (target s) < 3 / 2 /\
      vec3.z (sphere_position (target s)) + radius (target s) < 0 /\
      radius (target s) * radius (target s)
      < Exact.norm2 (sphere_position (target s)))%R) /\
  (forall l, In l (sceneLights scene) ->
     (500 <= radiantPower (target l) < 1500 /\
      vec3.z (light_position (target l)) <= -5)%R).
Proof.
  assert (Hu : Exact.drawsInRange (fun _ => (1 / 4)%R)).
  { intros i. lra. }
  split; [exact Hu|].
  exact (randomScene_well_formed Exact.anyDiv0 (fun _ => (1 / 4)%R) 0%nat Hu).
Defined.

